(** * QR-DQN agent: a shallow embedding of [src/agents/qr_dqn_agent.py]

    Tensors are lists (one nesting level per dimension) whose entries are
    rationals: every finite float is a rational.  The tensor operations of
    module [Tensor] are the exact counterparts of the torch operations the
    agent calls; statements whose truth depends on float32 range carry the
    magnitude bounds under which no intermediate result overflows or
    underflows.  Module [F32] is IEEE binary32 itself (round to nearest,
    ties to even); [tau_hat] is built with it, and [huber32] evaluates the
    Huber expression with it.  The network [QRCNN], the optimizer and the
    prioritized replay buffer are not part of the agent file; they enter as
    section variables. *)

From Stdlib Require Import String QArith Qabs Qround Lqa Lia ZArith Bool List Sorted.
From Stdlib Require Import SpecFloat.
Import ListNotations.
Open Scope Q_scope.

(** ** Exceptions and results *)

Inductive exn : Type :=
| ValueError (msg : string)
| ZeroDivisionError
| IndexError
| RuntimeError.

Inductive result (A : Type) : Type :=
| Ok (a : A)
| Raise (e : exn).
Arguments Ok {A} a.
Arguments Raise {A} e.

Definition bind {A B : Type} (r : result A) (k : A -> result B) : result B :=
  match r with
  | Ok a => k a
  | Raise e => Raise e
  end.

Notation "x <- r ;; k" := (bind r (fun x => k))
  (at level 61, r at next level, right associativity).

(** ** Tensor primitives *)

Module Tensor.

Definition Qltb (x y : Q) : bool := negb (Qle_bool y x).

Definition of_nat (n : nat) : Q := inject_Z (Z.of_nat n).

(** [(x < 0.0).float()] and friends: a boolean tensor cast to numbers. *)
Definition float_of_bool (b : bool) : Q := if b then 1 else 0.

Definition sum (l : list Q) : Q := fold_right Qplus 0 l.

(** [t.mean(dim)] on the last remaining dimension, as the exact quotient
    (torch rounds the sum and the quotient, so a float mean can differ
    from it in the last place).  On an empty tensor torch yields nan,
    which has no rational counterpart; the statements below take means of
    non-empty tensors only. *)
Definition mean (l : list Q) : Q := sum l / of_nat (length l).

(** Elementwise binary operation on two tensors of the same shape. *)
Fixpoint map2 {A B C : Type} (f : A -> B -> C) (l1 : list A) (l2 : list B)
  : list C :=
  match l1, l2 with
  | a :: t1, b :: t2 => f a b :: map2 f t1 t2
  | _, _ => []
  end.

(** [t.argmax(dim)]: the index of the first maximal entry.  The scan keeps
    the running best and replaces it only by a strictly larger entry. *)
Fixpoint argmax_from (best_i : nat) (best : Q) (i : nat) (l : list Q) : nat :=
  match l with
  | [] => best_i
  | x :: t =>
      if Qltb best x then argmax_from i x (S i) t
      else argmax_from best_i best (S i) t
  end.

Definition argmax (l : list Q) : result nat :=
  match l with
  | [] => Raise IndexError
  | x :: t => Ok (argmax_from 0 x 1 t)
  end.

(** [t.sort()] in ascending order. *)
Fixpoint insert (x : Q) (l : list Q) : list Q :=
  match l with
  | [] => [x]
  | y :: t => if Qle_bool x y then x :: y :: t else y :: insert x t
  end.

Fixpoint sort (l : list Q) : list Q :=
  match l with
  | [] => []
  | x :: t => insert x (sort t)
  end.

(** [torch.lerp(a, b, w)]. *)
Definition lerp (a b w : Q) : Q := a + w * (b - a).

(** [t.quantile(q, dim)] with the default linear interpolation: the rank
    [q * (n - 1)] is split into its floor and ceiling, and the two sorted
    entries there are interpolated by the fractional part, exactly (in
    float32 the difference of the two entries can overflow; statements
    about percentiles bound the entries).  torch raises on an empty input;
    the agent is only built with at least one quantile. *)
Definition quantile (q : Q) (l : list Q) : Q :=
  let sorted := sort l in
  let ranks := q * of_nat (length l - 1) in
  let ranks_below := Qfloor ranks in
  let values_below := nth (Z.to_nat ranks_below) sorted 0 in
  let weights := ranks - inject_Z ranks_below in
  let ranks_above := Qceiling ranks in
  let values_above := nth (Z.to_nat ranks_above) sorted 0 in
  lerp values_below values_above weights.

End Tensor.

Import Tensor.

(** ** IEEE binary32 *)

Module F32.

Definition prec : Z := 24.
Definition emax : Z := 128.

Definition add : spec_float -> spec_float -> spec_float := SFadd prec emax.
Definition sub : spec_float -> spec_float -> spec_float := SFsub prec emax.
Definition mul : spec_float -> spec_float -> spec_float := SFmul prec emax.
Definition div : spec_float -> spec_float -> spec_float := SFdiv prec emax.

(** The binary32 number nearest to [m * 2^e]. *)
Definition round (m e : Z) : spec_float := binary_normalize prec emax m e false.

Definition zero : spec_float := S754_zero false.
Definition one : spec_float := round 1 0.
Definition half : spec_float := round 1 (-1).

(** An integer index converted to binary32. *)
Definition of_nat (n : nat) : spec_float := round (Z.of_nat n) 0.

(** A binary64 value converted to binary32. *)
Definition of_double (x : spec_float) : spec_float :=
  match x with
  | S754_finite s m e => round (if s then Z.neg m else Z.pos m) e
  | _ => x
  end.

(** The rational a finite binary32 number denotes (0 for the others). *)
Definition to_Q (x : spec_float) : Q :=
  match x with
  | S754_finite s m e =>
      let v :=
        if Z.leb 0 e then inject_Z (Z.pos m * 2 ^ e)
        else Z.pos m # (2 ^ Z.to_pos (- e)) in
      if s then - v else v
  | _ => 0
  end.

(** [x * y + z] with a single rounding (fused multiply-add), as a build
    that contracts such an expression computes it.  When an operand is
    zero, infinite or nan the product is exact or decides the result, and
    the two-step evaluation gives the same value. *)
Definition fma (x y z : spec_float) : spec_float :=
  match x, y, z with
  | S754_finite sx mx ex, S754_finite sy my ey, S754_finite sz mz ez =>
      let ep := (ex + ey)%Z in
      let e := Z.min ep ez in
      let p := cond_Zopp (xorb sx sy) (Z.pos mx * Z.pos my * 2 ^ (ep - e)) in
      let a := cond_Zopp sz (Z.pos mz * 2 ^ (ez - e)) in
      binary_normalize prec emax (p + a) e false
  | _, _, _ => add (mul x y) z
  end.

(** [torch.linspace(start, end, steps)] on float32, as the CPU kernel
    fills it: [step = (end - start) / (steps - 1)]; entry [idx] is
    [start + step * idx] below [steps / 2] and
    [end - step * (steps - idx - 1)] from there on.  [fused] says whether
    the build contracts each of the two expressions into one fused
    operation or rounds the product first. *)
Definition linspace (fused : bool) (start stop : spec_float) (steps : nat)
  : list spec_float :=
  let step := div (sub stop start) (of_nat (steps - 1)) in
  let halfway := Nat.div steps 2 in
  map (fun idx =>
         if Nat.ltb idx halfway then
           if fused then fma step (of_nat idx) start
           else add start (mul step (of_nat idx))
         else
           if fused then fma (SFopp step) (of_nat (steps - idx - 1)) stop
           else sub stop (mul step (of_nat (steps - idx - 1))))
      (seq 0 steps).

(** The Python float [0.5 / n] (binary64) as it enters a float32 tensor
    operation. *)
Definition half_over (n : nat) : spec_float :=
  of_double (SFdiv 53 1024 (binary_normalize 53 1024 1 (-1) false)
                   (binary_normalize 53 1024 (Z.of_nat n) 0 false)).

End F32.

(** ** The agent's static helpers *)

(** [QRDQNAgent.huber(x, k=1.0)], as the exact counterpart of the float32
    expression; [huber32] below is the float32 evaluation itself. *)
Definition huber_k (x k : Q) : Q :=
  let cond := float_of_bool (Qltb (Qabs x) k) in
  (1#2) * cond * x ^ 2 + (1 - cond) * k * (Qabs x - (1#2) * k).

Definition huber (x : Q) : Q := huber_k x 1.

(** The same expression on a float32 entry, operation by operation:
    [0.5 * cond * x.pow(2) + (1 - cond) * k * (x.abs() - 0.5 * k)]. *)
Definition huber32 (x : spec_float) : spec_float :=
  let k := F32.one in
  let cond := if SFltb (SFabs x) k then F32.one else F32.zero in
  F32.add (F32.mul (F32.mul F32.half cond) (F32.mul x x))
          (F32.mul (F32.mul (F32.sub F32.one cond) k)
                   (F32.sub (SFabs x) (F32.mul F32.half k))).

(** [self.tau_hat] as built in [__init__], in float32:
    [linspace(0.0, 1.0, num_quantiles+1)[:-1] + 0.5 / num_quantiles]. *)
Definition tau_hat32 (fused : bool) (num_quantiles : nat) : list spec_float :=
  let offset := F32.half_over num_quantiles in
  map (fun t => F32.add t offset)
      (removelast (F32.linspace fused F32.zero F32.one (num_quantiles + 1))).

(** The entries of [tau_hat] as rationals. *)
Definition make_tau_hat_on (fused : bool) (num_quantiles : nat) : list Q :=
  map F32.to_Q (tau_hat32 fused num_quantiles).

(** [tau_hat] with every operation rounded on its own, as the kernel is
    written. *)
Definition make_tau_hat (num_quantiles : nat) : list Q :=
  make_tau_hat_on false num_quantiles.

(** [get_risk_preference_from_rewards(recent_rewards, threshold)], with
    [np.mean] as the exact mean (numpy rounds it in binary64). *)
Definition get_risk_preference_from_rewards (recent_rewards : list Q)
  (threshold : Q) : string :=
  if Nat.eqb (length recent_rewards) 0 then "neutral"%string
  else
    let average_reward := mean recent_rewards in
    if Qltb average_reward threshold then "risk-seeking"%string
    else "risk-averse"%string.

(** [input.gather(1, index.expand(-1, -1, n)).squeeze(1)] for an input of
    shape (batch, actions, n) and one action index per batch element: the
    row of that action.  torch raises on an index outside the action
    dimension. *)
Fixpoint gather (input : list (list (list Q))) (index : list nat)
  : result (list (list Q)) :=
  match input, index with
  | x :: xs, a :: idx =>
      match nth_error x a with
      | Some row => rest <- gather xs idx ;; Ok (row :: rest)
      | None => Raise RuntimeError
      end
  | _, _ => Ok []
  end.

(** [t.argmax(dim=1)] on a (batch, actions) tensor. *)
Fixpoint argmax_rows (t : list (list Q)) : result (list nat) :=
  match t with
  | [] => Ok []
  | row :: rows =>
      a <- argmax row ;; rest <- argmax_rows rows ;; Ok (a :: rest)
  end.

(** [t.item()]: the value of a one-element tensor. *)
Definition item {A : Type} (t : list A) : result A :=
  match t with
  | [a] => Ok a
  | _ => Raise RuntimeError
  end.

(** Python's [min(a, b)]: [b] when [b < a], otherwise [a]. *)
Definition py_min (a b : Q) : Q := if Qltb b a then b else a.

(** ** The quantile Huber loss of [train_step] (part 3) *)

(** [targets.unsqueeze(1) - quantiles_pred_chosen.unsqueeze(-1)]: entry
    [b, p, q] is [targets[b, q] - pred[b, p]]. *)
Definition pairwise_delta (targets pred : list (list Q))
  : list (list (list Q)) :=
  map2 (fun tg pr => map (fun p => map (fun t => t - p) tg) pr) targets pred.

(** [(pairwise_delta.detach() < 0.0).float()]. *)
Definition indicator (delta : list (list (list Q))) : list (list (list Q)) :=
  map (map (map (fun d => float_of_bool (Qltb d 0)))) delta.

(** [torch.abs(tau - indicator)] with [tau = tau_hat.view(1, -1, 1)]: the
    entries of [tau_hat] run along dimension 1. *)
Definition quantile_weights (tau_hat : list Q)
  (ind : list (list (list Q))) : list (list (list Q)) :=
  map (fun ind_b =>
         map2 (fun tau_p row => map (fun i => Qabs (tau_p - i)) row)
              tau_hat ind_b) ind.

(** [(quantile_weights * huber_loss).mean(dim=2).mean(dim=1)]. *)
Definition batch_loss (qw hl : list (list (list Q))) : list Q :=
  map (fun m => mean (map mean m)) (map2 (map2 (map2 Qmult)) qw hl).

(** Part 3 of [train_step] up to [weighted_loss].  [pred_detached] holds
    the values that enter through [.detach()]; in the forward pass it is
    [pred] itself. *)
Definition quantile_huber_losses (tau_hat : list Q)
  (targets pred_detached pred : list (list Q)) : list Q :=
  let huber_loss := map (map (map huber)) (pairwise_delta targets pred) in
  let ind := indicator (pairwise_delta targets pred_detached) in
  batch_loss (quantile_weights tau_hat ind) huber_loss.

Definition weighted_loss (weights_t loss : list Q) : Q :=
  mean (map2 Qmult weights_t loss).

(** [torch.abs(targets - quantiles_pred_chosen).mean(dim=1)]. *)
Definition td_errors (targets pred : list (list Q)) : list Q :=
  map mean (map2 (map2 (fun t p => Qabs (t - p))) targets pred).

(** The branch of [choose_action] on [risk_preference]: one scalar per
    action from a (batch, actions, quantiles) tensor. *)
Definition reduce_quantiles (risk_preference : string)
  (quantiles : list (list (list Q))) : result (list (list Q)) :=
  if String.eqb risk_preference "neutral" then
    Ok (map (map mean) quantiles)
  else if String.eqb risk_preference "risk-averse" then
    Ok (map (map (quantile (1#10))) quantiles)
  else if String.eqb risk_preference "risk-seeking" then
    Ok (map (map (quantile (9#10))) quantiles)
  else
    Raise (ValueError "Invalid risk preference. Choose 'neutral', 'risk-averse', or 'risk-seeking'.").

(** ** The agent *)

Section Agent.

Variables State Params OptState Buffer : Type.

(** [net(x)] for a batch [x] of states: shape (batch, actions, quantiles). *)
Variable forward : Params -> list State -> list (list (list Q)).

(** [zero_grad(); loss.backward(); optimizer.step()] for an optimizer built
    on the online parameters: one step on the scalar loss, given as a
    function of those parameters. *)
Variable optimizer_step :
  OptState -> Params -> (Params -> result Q) -> OptState * Params.

Record Batch : Type := mkBatch {
  states : list State;
  actions : list nat;
  rewards : list Q;
  next_states : list State;
  dones : list bool;
  indices : list nat;
  weights : list Q
}.

(** The replay buffer: [len(buffer)], [buffer.sample(batch_size, beta)]
    (the seven parallel arrays, and the buffer as sampling left it) and
    [buffer.update_priorities(indices, td_errors)]. *)
Variable rb_len : Buffer -> nat.
Variable rb_sample : Buffer -> nat -> Q -> Batch * Buffer.
Variable rb_update_priorities : Buffer -> list nat -> list Q -> Buffer.

Record Agent : Type := mkAgent {
  num_actions : nat;
  num_quantiles : nat;
  gamma : Q;
  batch_size : nat;
  epsilon : Q;
  beta : Q;
  beta_increment : Q;
  online_net : Params;
  target_net : Params;
  optimizer : OptState;
  replay_buffer : Buffer;
  tau_hat : list Q
}.

(** [__init__]: [net0], [opt0] and [buffer0] are the freshly built online
    network, optimizer and replay buffer; the target network is loaded
    from the online one.  [0.5 / num_quantiles] raises for no quantiles.
    [fused] is the evaluation of [linspace] in the torch build at hand. *)
Definition init (fused : bool) (n_actions n_quantiles : nat) (gamma0 : Q)
  (batch_size0 : nat) (epsilon_start beta_start beta_increment0 : Q)
  (net0 : Params) (opt0 : OptState) (buffer0 : Buffer) : result Agent :=
  if Nat.eqb n_quantiles 0 then Raise ZeroDivisionError
  else
    Ok (mkAgent n_actions n_quantiles gamma0 batch_size0 epsilon_start
                beta_start beta_increment0 net0 net0 opt0 buffer0
                (make_tau_hat_on fused n_quantiles)).

(** [choose_action(state, risk_preference)].  [u] is the value drawn by
    [random.random()] and [env_sample] the action drawn by
    [env.action_space.sample()]. *)
Definition choose_action (s : Agent) (u : Q) (env_sample : nat)
  (state : State) (risk_preference : string) : result nat :=
  if Qltb u (epsilon s) then Ok env_sample
  else
    let quantiles := forward (online_net s) [state] in
    q_values <- reduce_quantiles risk_preference quantiles ;;
    action <- argmax_rows q_values ;;
    item action.

(** [update_target_network()]: [load_state_dict] copies every entry of the
    online state dict into the target network. *)
Definition update_target_network (s : Agent) : Agent :=
  mkAgent (num_actions s) (num_quantiles s) (gamma s) (batch_size s)
          (epsilon s) (beta s) (beta_increment s)
          (online_net s) (online_net s) (optimizer s) (replay_buffer s)
          (tau_hat s).

(** Part 1 of [train_step]: the quantiles of the taken actions. *)
Definition quantiles_pred_chosen (net : Params) (states_t : list State)
  (actions_t : list nat) : result (list (list Q)) :=
  let quantiles_pred := forward net states_t in
  gather quantiles_pred actions_t.

(** Part 2 of [train_step]: the double-Q Bellman targets. *)
Definition bellman_targets (gamma : Q) (online target : Params)
  (rewards_t : list Q) (next_states_t : list State) (dones_t : list Q)
  : result (list (list Q)) :=
  let next_quantiles_online := forward online next_states_t in
  let next_q_online_mean := map (map mean) next_quantiles_online in
  best_actions <- argmax_rows next_q_online_mean ;;
  let next_quantiles_target := forward target next_states_t in
  next_quantiles_target_chosen <- gather next_quantiles_target best_actions ;;
  let temp1 := map (fun d => 1 - d) dones_t in
  let temp2 := map (fun t => t * gamma) temp1 in
  let temp3 :=
    map2 (fun t row => map (fun x => t * x) row)
         temp2 next_quantiles_target_chosen in
  let targets := map2 (fun r row => map (fun x => r + x) row) rewards_t temp3 in
  Ok targets.

(** How a call of [train_step] ends, with the agent as the call left it. *)
Inductive outcome : Type :=
| Returned (s : Agent)
| Raised (e : exn) (s : Agent).

Definition state_after (o : outcome) : Agent :=
  match o with
  | Returned s => s
  | Raised _ s => s
  end.

(** The tensors of one forward pass of [train_step]. *)
Record Forward : Type := mkForward {
  fw_pred : list (list Q);
  fw_targets : list (list Q);
  fw_loss : list Q;
  fw_weighted_loss : Q
}.

Definition forward_pass (s : Agent) (batch : Batch) : result Forward :=
  let dones_t := map float_of_bool (dones batch) in
  pred <- quantiles_pred_chosen (online_net s) (states batch) (actions batch) ;;
  targets <- bellman_targets (gamma s) (online_net s) (target_net s)
               (rewards batch) (next_states batch) dones_t ;;
  let loss := quantile_huber_losses (tau_hat s) targets pred pred in
  Ok (mkForward pred targets loss (weighted_loss (weights batch) loss)).

(** The scalar loss as a function of the online parameters, as the
    gradient sees it: only [quantiles_pred_chosen] is tracked; the targets
    (computed under [no_grad]) and the detached indicator are constants. *)
Definition tracked_loss (s : Agent) (batch : Batch) (fw : Forward)
  (net : Params) : result Q :=
  pred <- quantiles_pred_chosen net (states batch) (actions batch) ;;
  Ok (weighted_loss (weights batch)
        (quantile_huber_losses (tau_hat s) (fw_targets fw) (fw_pred fw) pred)).

(** [train_step()]. *)
Definition train_step (s : Agent) : outcome :=
  if (rb_len (replay_buffer s) <? batch_size s)%nat then Returned s
  else
    let '(batch, buffer1) :=
      rb_sample (replay_buffer s) (batch_size s) (beta s) in
    let s1 :=
      mkAgent (num_actions s) (num_quantiles s) (gamma s) (batch_size s)
              (epsilon s) (py_min 1 (beta s + beta_increment s))
              (beta_increment s) (online_net s) (target_net s)
              (optimizer s) buffer1 (tau_hat s) in
    match forward_pass s1 batch with
    | Raise e => Raised e s1
    | Ok fw =>
        let '(optimizer', online') :=
          optimizer_step (optimizer s1) (online_net s1)
                         (tracked_loss s1 batch fw) in
        let errors := td_errors (fw_targets fw) (fw_pred fw) in
        Returned
          (mkAgent (num_actions s1) (num_quantiles s1) (gamma s1)
                   (batch_size s1) (epsilon s1) (beta s1) (beta_increment s1)
                   online' (target_net s1) optimizer'
                   (rb_update_priorities buffer1 (indices batch) errors)
                   (tau_hat s1))
    end.

End Agent.

Arguments mkBatch {State}.
Arguments states {State}.
Arguments actions {State}.
Arguments rewards {State}.
Arguments next_states {State}.
Arguments dones {State}.
Arguments indices {State}.
Arguments weights {State}.
Arguments mkAgent {Params OptState Buffer}.
Arguments num_actions {Params OptState Buffer}.
Arguments num_quantiles {Params OptState Buffer}.
Arguments gamma {Params OptState Buffer}.
Arguments batch_size {Params OptState Buffer}.
Arguments epsilon {Params OptState Buffer}.
Arguments beta {Params OptState Buffer}.
Arguments beta_increment {Params OptState Buffer}.
Arguments online_net {Params OptState Buffer}.
Arguments target_net {Params OptState Buffer}.
Arguments optimizer {Params OptState Buffer}.
Arguments replay_buffer {Params OptState Buffer}.
Arguments tau_hat {Params OptState Buffer}.
Arguments Returned {Params OptState Buffer}.
Arguments Raised {Params OptState Buffer}.
Arguments state_after {Params OptState Buffer}.
Arguments init {Params OptState Buffer}.
Arguments choose_action {State Params OptState Buffer}.
Arguments update_target_network {Params OptState Buffer}.
Arguments quantiles_pred_chosen {State Params}.
Arguments bellman_targets {State Params}.
Arguments forward_pass {State Params OptState Buffer}.
Arguments tracked_loss {State Params OptState Buffer}.
Arguments train_step {State Params OptState Buffer}.

(** ** A small concrete agent

    A table network whose parameters are its (actions, quantiles) output, a
    buffer that stores the transitions as parallel arrays and hands out the
    oldest ones with unit weights, and an optimizer that lowers every
    parameter by a tenth.  It instantiates the section variables wherever a
    statement is evaluated on concrete data. *)

Module Toy.

Definition State : Type := nat.
Definition Params : Type := list (list Q).
Definition OptState : Type := nat.
Definition Buffer : Type := Batch State.

Definition forward (net : Params) (x : list State) : list (list (list Q)) :=
  map (fun _ => net) x.

Definition optimizer_step (o : OptState) (net : Params)
  (loss : Params -> result Q) : OptState * Params :=
  (S o, map (map (fun x => x - (1#10))) net).

Definition rb_len (b : Buffer) : nat := length (states b).

Definition rb_sample (b : Buffer) (n : nat) (beta : Q) : Batch State * Buffer :=
  (mkBatch (firstn n (states b)) (firstn n (actions b)) (firstn n (rewards b))
           (firstn n (next_states b)) (firstn n (dones b)) (seq 0 n)
           (repeat 1 n), b).

Definition rb_update_priorities (b : Buffer) (idx : list nat) (errs : list Q)
  : Buffer := b.

Definition net0 : Params := [[0; 2]; [3; 1]].
Definition net1 : Params := [[5; 7]; [1; 1]].

Definition empty_buffer : Buffer := mkBatch [] [] [] [] [] [] [].

Definition stocked_buffer : Buffer :=
  mkBatch [0%nat; 1%nat] [0%nat; 1%nat] [1; 2] [1%nat; 2%nat] [false; true]
          [] [].

Definition agent (eps : Q) (b : Buffer) : Agent Params OptState Buffer :=
  mkAgent 2 2 (1#2) 2 eps (2#5) (1#1000) net0 net1 0%nat b (make_tau_hat 2).

Definition step (s : Agent Params OptState Buffer) :=
  train_step forward optimizer_step rb_len rb_sample rb_update_priorities s.

End Toy.

(** ** Reference notions used by the statements *)

(** [a] is the first index at which [l] is maximal. *)
Definition first_max (l : list Q) (a : nat) : Prop :=
  (a < length l)%nat /\
  (forall j, (j < length l)%nat -> nth j l 0 <= nth a l 0) /\
  (forall j, (j < a)%nat -> nth j l 0 < nth a l 0).

(** The three strings [choose_action] accepts. *)
Definition valid_risk_preference (r : string) : Prop :=
  r = "neutral"%string \/ r = "risk-averse"%string \/ r = "risk-seeking"%string.

(** A (batch, actions, quantiles) tensor with [A] actions and [N] quantiles
    for every batch element. *)
Definition well_shaped (A N : nat) (t : list (list (list Q))) : Prop :=
  Forall (fun x => length x = A /\ Forall (fun row => length row = N) x) t.

(** A (batch, quantiles) tensor with [B] rows of [N] entries. *)
Definition has_shape (B N : nat) (t : list (list Q)) : Prop :=
  length t = B /\ Forall (fun row => length row = N) t.





(** A quantile vector with ten entries at 0 and one at 11. *)
Definition skewed : list Q := [0; 0; 0; 0; 0; 0; 0; 0; 0; 0; 11].

(** The pairwise difference of one batch element, by index:
    [i] is the target quantile index, [j] the predicted one. *)
Definition ref_delta (target predicted : list Q) (i j : nat) : Q :=
  nth i target 0 - nth j predicted 0.

(** The quantile Huber loss of one batch element with the level taken at
    the target index [i], averaged over [j] first and over [i] second. *)
Definition ref_loss_tau_target (tau target predicted : list Q) (N : nat) : Q :=
  mean (map (fun i =>
    mean (map (fun j =>
      Qabs (nth i tau 0
            - float_of_bool (Qltb (ref_delta target predicted i j) 0))
      * huber (ref_delta target predicted i j)) (seq 0 N))) (seq 0 N)).

(** The same with the level taken at the predicted index [j]. *)
Definition ref_loss_tau_predicted (tau target predicted : list Q) (N : nat)
  : Q :=
  mean (map (fun i =>
    mean (map (fun j =>
      Qabs (nth j tau 0
            - float_of_bool (Qltb (ref_delta target predicted i j) 0))
      * huber (ref_delta target predicted i j)) (seq 0 N))) (seq 0 N)).

(** The loss of one batch element, as [quantile_huber_losses] computes it
    ([prd] is the detached copy of the predictions [pr]). *)
Definition element_loss (tau tg prd pr : list Q) : Q :=
  mean (map mean
    (map2 (map2 Qmult)
       (map2 (fun tau_p row => map (fun i => Qabs (tau_p - i)) row) tau
          (map (map (fun d => float_of_bool (Qltb d 0)))
             (map (fun p => map (fun t => t - p) tg) prd)))
       (map (map huber) (map (fun p => map (fun t => t - p) tg) pr)))).

(** [mean_b (IS_weight[b] * per_element_loss[b])] over a batch of [B]. *)
Definition ref_weighted_mean (w loss : list Q) (B : nat) : Q :=
  mean (map (fun b => nth b w 0 * nth b loss 0) (seq 0 B)).

(** ** Notions used by the further properties *)

(** A network whose output on any batch has one (A, N) block per state. *)
Definition net_shaped {State Params : Type}
  (forward : Params -> list State -> list (list (list Q)))
  (A N : nat) (net : Params) : Prop :=
  forall x, length (forward net x) = length x /\ well_shaped A N (forward net x).

(** A sampled batch of [B] transitions whose stored actions are below [A]. *)
Definition batch_wf {State : Type} (A B : nat) (batch : Batch State) : Prop :=
  length (states batch) = B /\ length (actions batch) = B /\
  length (rewards batch) = B /\ length (next_states batch) = B /\
  length (dones batch) = B /\ length (weights batch) = B /\
  Forall (fun a => (a < A)%nat) (actions batch).

(** A quantile vector whose entries all agree: a return known for sure. *)
Definition point_mass (row : list Q) : Prop :=
  row <> [] /\ exists c, forall x, In x row -> x == c.

(** A quantile vector in non-decreasing order. *)
Definition nondecreasing (row : list Q) : Prop :=
  forall i j, (i <= j)%nat -> (j < length row)%nat ->
    nth i row 0 <= nth j row 0.

(** An agent on the table network whose two actions have the sure returns
    1 and 4. *)
Definition sure_agent : Agent Toy.Params Toy.OptState Toy.Buffer :=
  mkAgent 2 2 (1#2) 2 0 (2#5) (1#1000) [[1; 1]; [4; 4]] Toy.net1 0%nat
          Toy.stocked_buffer (make_tau_hat 2).

(** A stocked buffer whose second transition stores action 5. *)
Definition stray_buffer : Toy.Buffer :=
  mkBatch [0%nat; 1%nat] [0%nat; 5%nat] [1; 2] [1%nat; 2%nat] [false; true]
          [] [].

Section Runs.

Context {State Params OptState Buffer : Type}.
Variable forward : Params -> list State -> list (list (list Q)).
Variable optimizer_step :
  OptState -> Params -> (Params -> result Q) -> OptState * Params.
Variable rb_len : Buffer -> nat.
Variable rb_sample : Buffer -> nat -> Q -> Batch State * Buffer.
Variable rb_update_priorities : Buffer -> list nat -> list Q -> Buffer.

(** [n] calls of [train_step] in a row, each on the agent as the previous
    call left it. *)
Fixpoint train_steps (n : nat) (s : Agent Params OptState Buffer)
  : Agent Params OptState Buffer :=
  match n with
  | O => s
  | S k =>
      train_steps k
        (state_after
           (train_step forward optimizer_step rb_len rb_sample
                       rb_update_priorities s))
  end.

End Runs.

(** * Properties *)

(** ** Comparisons and casts *)

Lemma Qltb_lt x y : Qltb x y = true <-> x < y.
Proof.
  unfold Qltb. rewrite negb_true_iff.
  split; intro H.
  - apply Qnot_le_lt. intro Hle. apply Qle_bool_iff in Hle. congruence.
  - destruct (Qle_bool y x) eqn:E; trivial.
    apply Qle_bool_iff in E. exfalso. apply (Qlt_not_le _ _ H E).
Qed.

Lemma Qltb_ge x y : Qltb x y = false <-> y <= x.
Proof.
  unfold Qltb. rewrite negb_false_iff. apply Qle_bool_iff.
Qed.

Lemma of_nat_pos n : (1 <= n)%nat -> 0 < of_nat n.
Proof.
  intro H. unfold of_nat. change 0 with (inject_Z 0). rewrite <- Zlt_Qlt. lia.
Qed.

Lemma of_nat_lt i j : (i < j)%nat -> of_nat i < of_nat j.
Proof. intro H. unfold of_nat. rewrite <- Zlt_Qlt. lia. Qed.

Lemma of_nat_le i j : (i <= j)%nat -> of_nat i <= of_nat j.
Proof. intro H. unfold of_nat. rewrite <- Zle_Qle. lia. Qed.

Lemma of_nat_S n : of_nat (S n) == of_nat n + 1.
Proof.
  unfold of_nat. rewrite Nat2Z.inj_succ. unfold Z.succ.
  rewrite inject_Z_plus. reflexivity.
Qed.

(** ** The Huber function *)

Lemma huber_small x : Qabs x < 1 -> huber x == (1#2) * (x * x).
Proof.
  intro H. unfold huber, huber_k. apply Qltb_lt in H. rewrite H.
  simpl float_of_bool. simpl Qpower. ring.
Qed.

Lemma huber_large x : 1 <= Qabs x -> huber x == Qabs x - (1#2).
Proof.
  intro H. unfold huber, huber_k. apply Qltb_ge in H. rewrite H.
  simpl float_of_bool. simpl Qpower. ring.
Qed.

(** C10, as the code has it: wherever [x * x] stays within float32 range
    ([|x| <= 2^63]) the Huber function with threshold 1 is even and
    non-negative, and for [x] that is 0 or at least [2^-63] in size it
    vanishes exactly at 0. *)
Theorem huber_even_nonneg_zero (x : Q) :
  Qabs x <= inject_Z (2 ^ 63) ->
  huber (- x) == huber x /\ 0 <= huber x /\
  (x == 0 \/ 1 # (2 ^ 63) <= Qabs x -> (huber x == 0 <-> x == 0)).
Proof.
  intros _.
  destruct (Qlt_le_dec (Qabs x) 1) as [Hs | Hl].
  - assert (Hs' : Qabs (- x) < 1) by (rewrite Qabs_opp; exact Hs).
    rewrite (huber_small _ Hs), (huber_small _ Hs').
    split; [ring|]. split; [nra|]. intros _.
    split; intro H; [nra | rewrite H; ring].
  - assert (Hl' : 1 <= Qabs (- x)) by (rewrite Qabs_opp; exact Hl).
    rewrite (huber_large _ Hl), (huber_large _ Hl'), Qabs_opp.
    split; [reflexivity|]. split; [lra|]. intros _.
    split; intro H; [lra|].
    rewrite H in Hl. exfalso. revert Hl. compute. intro Hc. now apply Hc.
Qed.

Lemma huber_even_nonneg_zero_witness :
  huber (- (3#4)) == huber (3#4) /\ 0 <= huber (3#4) /\
  ((3#4) == 0 \/ 1 # (2 ^ 63) <= Qabs (3#4) ->
   (huber (3#4) == 0 <-> (3#4) == 0)).
Proof.
  apply (huber_even_nonneg_zero (3#4)). vm_compute. discriminate.
Defined.

(** C10 as stated fails on float32: [2^-80] is not 0, yet its square
    underflows and the Huber value is 0. *)
Lemma huber32_underflow :
  huber32 (F32.round 1 (-80)) = F32.zero /\
  ~ F32.to_Q (F32.round 1 (-80)) == 0.
Proof.
  split; [vm_compute; reflexivity|].
  intro E. vm_compute in E. discriminate E.
Qed.

(** Beyond [2^64] the square overflows and the unused quadratic branch
    turns the sum into nan ([0 * inf]). *)
Lemma huber32_overflow :
  huber32 (F32.round 1 65) = S754_nan /\
  huber32 (F32.round 1 63) = F32.round 1 63.
Proof. vm_compute. split; reflexivity. Qed.

(** At the ends of the range of C10 the float32 value is still finite and
    non-zero: [huber32(2^-63) = 2^-127] and [huber32(-2^63) = 2^63]. *)
Lemma huber32_range_ends :
  huber32 (F32.round 1 (-63)) = F32.round 1 (-127) /\
  huber32 (F32.round (-1) 63) = F32.round 1 63.
Proof. vm_compute. split; reflexivity. Qed.

(** ** The quantile midpoints *)







(** The constructor stores these entries and loads the target network
    from the online one. *)
Lemma init_tau_hat {Params OptState Buffer : Type} fused A N g bs e b bi
  (net0 : Params) (opt0 : OptState) (buf0 : Buffer) :
  (1 <= N)%nat ->
  exists s, init fused A N g bs e b bi net0 opt0 buf0 = Ok s /\
            tau_hat s = make_tau_hat_on fused N /\
            target_net s = online_net s.
Proof.
  intro HN. unfold init. destruct N as [|n]; [lia|]. simpl Nat.eqb.
  eexists. split; [reflexivity|]. split; reflexivity.
Qed.

(** ** Sorting and quantiles *)

Lemma insert_length x l : length (insert x l) = S (length l).
Proof.
  induction l as [|y t IH]; simpl; [reflexivity|].
  destruct (Qle_bool x y); simpl; [reflexivity | now rewrite IH].
Qed.

Lemma sort_length l : length (sort l) = length l.
Proof.
  induction l as [|x t IH]; simpl; [reflexivity|].
  now rewrite insert_length, IH.
Qed.

Lemma insert_In x y l : In y (insert x l) -> y = x \/ In y l.
Proof.
  induction l as [|z t IH]; simpl.
  - intros [H|[]]; auto.
  - destruct (Qle_bool x z); simpl.
    + intros [H|[H|H]]; auto.
    + intros [H|H]; auto. destruct (IH H); auto.
Qed.

Lemma insert_sorted x l :
  StronglySorted Qle l -> StronglySorted Qle (insert x l).
Proof.
  induction 1 as [|y t Hs IH Hall]; simpl.
  - constructor; constructor.
  - destruct (Qle_bool x y) eqn:E.
    + apply Qle_bool_iff in E.
      constructor; [constructor; assumption|].
      constructor; [exact E|].
      rewrite Forall_forall in *. intros z Hz.
      apply Qle_trans with y; auto.
    + assert (Hyx : y <= x).
      { apply Qlt_le_weak, Qnot_le_lt. intro H.
        apply Qle_bool_iff in H. congruence. }
      constructor; [exact IH|].
      rewrite Forall_forall in *. intros z Hz.
      destruct (insert_In _ _ _ Hz) as [-> | Hin]; auto.
Qed.

Lemma sort_sorted l : StronglySorted Qle (sort l).
Proof.
  induction l as [|x t IH]; simpl; [constructor | apply insert_sorted, IH].
Qed.

Lemma sorted_nth_le l :
  StronglySorted Qle l ->
  forall i j, (i <= j)%nat -> (j < length l)%nat -> nth i l 0 <= nth j l 0.
Proof.
  induction 1 as [|x t Hs IH Hall]; intros i j Hij Hj; simpl in Hj; [lia|].
  destruct i as [|i], j as [|j]; simpl; try lia.
  - apply Qle_refl.
  - rewrite Forall_forall in Hall. apply Hall, nth_In. lia.
  - apply IH; lia.
Qed.

Lemma Qceiling_le_floor_succ x : (Qceiling x <= Qfloor x + 1)%Z.
Proof.
  rewrite <- (Qceiling_Z (Qfloor x + 1)).
  apply Qceiling_resp_le, Qlt_le_weak, Qlt_floor.
Qed.

Lemma Qfloor_le_ceiling x : (Qfloor x <= Qceiling x)%Z.
Proof.
  rewrite Zle_Qle.
  apply Qle_trans with x; [apply Qfloor_le | apply Qle_ceiling].
Qed.

Lemma lerp_between a b w :
  a <= b -> 0 <= w -> w <= 1 -> a <= lerp a b w /\ lerp a b w <= b.
Proof. unfold lerp. intros. split; nra. Qed.

(** The interpolated quantile grows with its level. *)
Lemma quantile_monotone (q1 q2 : Q) (l : list Q) :
  0 <= q1 -> q1 <= q2 -> q2 <= 1 -> l <> [] ->
  quantile q1 l <= quantile q2 l.
Proof.
  intros H0 H12 H1 Hl. unfold quantile.
  set (s := sort l).
  assert (Hn : (1 <= length l)%nat) by (destruct l; simpl; [congruence | lia]).
  set (m := (length l - 1)%nat).
  assert (Hm : 0 <= of_nat m) by (apply (of_nat_le 0); lia).
  set (r1 := q1 * of_nat m). set (r2 := q2 * of_nat m).
  assert (Hr1 : 0 <= r1) by (unfold r1; nra).
  assert (Hr12 : r1 <= r2) by (unfold r1, r2; nra).
  assert (Hr2 : r2 <= of_nat m) by (unfold r2; nra).
  assert (Hmono : forall i j : Z, (0 <= i <= j)%Z -> (j <= Z.of_nat m)%Z ->
                  nth (Z.to_nat i) s 0 <= nth (Z.to_nat j) s 0).
  { intros i j Hij Hj. apply sorted_nth_le; [apply sort_sorted | lia |].
    unfold s. rewrite sort_length. lia. }
  pose proof (Qfloor_le r1) as Hf1. pose proof (Qlt_floor r1) as Hf1'.
  pose proof (Qfloor_le r2) as Hf2. pose proof (Qlt_floor r2) as Hf2'.
  pose proof (Qfloor_le_ceiling r1) as Hfc1.
  pose proof (Qfloor_le_ceiling r2) as Hfc2.
  pose proof (Qceiling_le_floor_succ r1) as Hcf1.
  pose proof (Qceiling_le_floor_succ r2) as Hcf2.
  pose proof (Qfloor_resp_le _ _ Hr12) as Hff.
  pose proof (Qceiling_resp_le _ _ Hr12) as Hcc.
  assert (Hf1pos : (0 <= Qfloor r1)%Z).
  { change 0%Z with (Qfloor 0). apply Qfloor_resp_le, Hr1. }
  assert (Hc2m : (Qceiling r2 <= Z.of_nat m)%Z).
  { rewrite <- (Qceiling_Z (Z.of_nat m)). apply Qceiling_resp_le, Hr2. }
  rewrite inject_Z_plus in Hf1', Hf2'.
  change (inject_Z 1) with 1 in Hf1', Hf2'.
  destruct (lerp_between (nth (Z.to_nat (Qfloor r1)) s 0)
              (nth (Z.to_nat (Qceiling r1)) s 0)
              (r1 - inject_Z (Qfloor r1))) as [Ha1 Hb1]; try lra.
  { apply Hmono; lia. }
  destruct (lerp_between (nth (Z.to_nat (Qfloor r2)) s 0)
              (nth (Z.to_nat (Qceiling r2)) s 0)
              (r2 - inject_Z (Qfloor r2))) as [Ha2 Hb2]; try lra.
  { apply Hmono; lia. }
  destruct (Z.eq_dec (Qfloor r1) (Qfloor r2)) as [Eff | Nff].
  - destruct (Z.eq_dec (Qceiling r1) (Qfloor r1)) as [Ecf | Ncf].
    + rewrite Ecf in *. unfold lerp at 1.
      setoid_replace (nth (Z.to_nat (Qfloor r1)) s 0
                      - nth (Z.to_nat (Qfloor r1)) s 0) with 0 by ring.
      rewrite Eff in *. lra.
    + assert (Ec : Qceiling r1 = Qceiling r2) by lia.
      rewrite <- Ec, <- Eff in *. unfold lerp.
      assert (Hd : nth (Z.to_nat (Qfloor r1)) s 0
                   <= nth (Z.to_nat (Qceiling r1)) s 0)
        by (apply Hmono; lia).
      nra.
  - assert (Hcf : (Qceiling r1 <= Qfloor r2)%Z) by lia.
    apply Qle_trans with (nth (Z.to_nat (Qceiling r1)) s 0); [exact Hb1|].
    apply Qle_trans with (nth (Z.to_nat (Qfloor r2)) s 0); [|exact Ha2].
    apply Hmono; lia.
Qed.

(** C5, as the code has it: on a quantile vector whose entries are at
    most [2^126] in size (no difference of two entries overflows float32)
    the risk-averse scalar (10th percentile) never exceeds the
    risk-seeking scalar (90th percentile). *)
Theorem risk_averse_le_risk_seeking (v : list Q) :
  v <> [] ->
  (forall x, In x v -> Qabs x <= inject_Z (2 ^ 126)) ->
  quantile (1#10) v <= quantile (9#10) v.
Proof.
  intros Hv _. apply quantile_monotone; try lra. exact Hv.
Qed.

Lemma risk_averse_le_risk_seeking_witness :
  quantile (1#10) [3; 1; 2; 5] <= quantile (9#10) [3; 1; 2; 5].
Proof.
  apply (risk_averse_le_risk_seeking [3; 1; 2; 5]); [discriminate|].
  intros x Hx. simpl in Hx.
  repeat (destruct Hx as [<- | Hx]; [vm_compute; discriminate|]).
  destruct Hx.
Defined.

(** C5 as stated fails: on [skewed] both percentiles are 0 and the mean
    is 1, so the neutral scalar exceeds the risk-seeking one. *)
Lemma risk_ordering_counterexample :
  ~ (quantile (1#10) skewed <= mean skewed /\
     mean skewed <= quantile (9#10) skewed).
Proof.
  intros [_ H]. vm_compute in H. apply H. reflexivity.
Qed.

(** ** Greedy action selection *)

Lemma argmax_from_spec (l : list Q) :
  forall (p : list Q) (best_i : nat) (best : Q) (i : nat),
    i = length p ->
    (best_i < length p)%nat ->
    nth best_i p 0 = best ->
    (forall j, (j < length p)%nat -> nth j p 0 <= best) ->
    (forall j, (j < best_i)%nat -> nth j p 0 < best) ->
    first_max (p ++ l) (argmax_from best_i best i l).
Proof.
  induction l as [|x t IH]; intros p best_i best i Hi Hb Hnth Hle Hlt; simpl.
  - rewrite app_nil_r. subst best. repeat split; assumption.
  - replace (p ++ x :: t) with ((p ++ [x]) ++ t)
      by (rewrite <- app_assoc; reflexivity).
    assert (Hlen : S i = length (p ++ [x]))
      by (rewrite length_app; simpl; lia).
    destruct (Qltb best x) eqn:E.
    + apply Qltb_lt in E. apply IH; trivial.
      * rewrite <- Hlen. lia.
      * subst i. rewrite app_nth2, Nat.sub_diag by lia. reflexivity.
      * intros j Hj. rewrite <- Hlen in Hj.
        destruct (Nat.eq_dec j i) as [-> | Hne].
        -- subst i. rewrite app_nth2, Nat.sub_diag by lia. apply Qle_refl.
        -- rewrite app_nth1 by lia.
           apply Qle_trans with best; [apply Hle; lia | lra].
      * intros j Hj. rewrite app_nth1 by lia.
        apply Qle_lt_trans with best; [apply Hle; lia | exact E].
    + apply Qltb_ge in E. apply IH; trivial.
      * rewrite <- Hlen. lia.
      * rewrite app_nth1 by lia. exact Hnth.
      * intros j Hj. rewrite <- Hlen in Hj.
        destruct (Nat.eq_dec j i) as [-> | Hne].
        -- subst i. rewrite app_nth2, Nat.sub_diag by lia. exact E.
        -- rewrite app_nth1 by lia. apply Hle; lia.
      * intros j Hj. rewrite app_nth1 by lia. apply Hlt; lia.
Qed.

Lemma argmax_spec (l : list Q) :
  l <> [] -> exists a, argmax l = Ok a /\ first_max l a.
Proof.
  destruct l as [|x t]; [congruence|]. intros _.
  exists (argmax_from 0 x 1 t). split; [reflexivity|].
  apply (argmax_from_spec t [x] 0%nat x 1%nat); simpl; trivial; try lia.
  intros j Hj. assert (j = 0)%nat by lia. subst. apply Qle_refl.
Qed.

Lemma first_max_unique l a b : first_max l a -> first_max l b -> a = b.
Proof.
  intros (Ha & Hale & Halt) (Hb & Hble & Hblt).
  destruct (Nat.lt_trichotomy a b) as [H | [H | H]]; trivial; exfalso.
  - specialize (Hblt a H). specialize (Hale b Hb). lra.
  - specialize (Halt b H). specialize (Hble a Ha). lra.
Qed.

Lemma reduce_quantiles_valid r quantiles :
  valid_risk_preference r ->
  exists f, reduce_quantiles r quantiles = Ok (map (map f) quantiles).
Proof.
  intros [-> | [-> | ->]]; unfold reduce_quantiles; simpl; eauto.
Qed.

Lemma reduce_quantiles_invalid r quantiles :
  ~ valid_risk_preference r ->
  exists msg, reduce_quantiles r quantiles = Raise (ValueError msg).
Proof.
  intro H. unfold reduce_quantiles, valid_risk_preference in *.
  destruct (String.eqb_spec r "neutral"); [tauto|].
  destruct (String.eqb_spec r "risk-averse"); [tauto|].
  destruct (String.eqb_spec r "risk-seeking"); [tauto|].
  eauto.
Qed.

Section ChooseAction.

Context {State Params OptState Buffer : Type}.
Variable forward : Params -> list State -> list (list (list Q)).

Lemma choose_action_greedy_branch (s : Agent Params OptState Buffer)
  (u : Q) (e : nat) (state : State) (r : string) :
  epsilon s <= u ->
  choose_action forward s u e state r =
  (q_values <- reduce_quantiles r (forward (online_net s) [state]) ;;
   action <- argmax_rows q_values ;; item action).
Proof.
  intro H. unfold choose_action. apply Qltb_ge in H. now rewrite H.
Qed.

(** C6: with [epsilon = 0] the choice does not depend on the random draws,
    it is an action index below [num_actions], and it is the first index
    at which the reduced per-action scalars are maximal. *)
Theorem choose_action_greedy_deterministic
  (s : Agent Params OptState Buffer) (state : State) (r : string)
  (rows : list (list Q)) (u1 u2 : Q) (e1 e2 : nat) :
  epsilon s == 0 -> 0 <= u1 -> 0 <= u2 ->
  forward (online_net s) [state] = [rows] ->
  length rows = num_actions s -> (1 <= num_actions s)%nat ->
  Forall (fun row => length row = num_quantiles s) rows ->
  (1 <= num_quantiles s)%nat ->
  valid_risk_preference r ->
  choose_action forward s u1 e1 state r
    = choose_action forward s u2 e2 state r /\
  exists a scalars,
    reduce_quantiles r [rows] = Ok [scalars] /\
    choose_action forward s u1 e1 state r = Ok a /\
    (a < num_actions s)%nat /\
    first_max scalars a.
Proof.
  intros Heps Hu1 Hu2 Hfw Hlen HA _ _ Hr.
  rewrite !choose_action_greedy_branch by (rewrite Heps; assumption).
  split; [reflexivity|].
  rewrite Hfw.
  destruct (reduce_quantiles_valid r [rows] Hr) as [f Hf].
  rewrite Hf. simpl map.
  destruct (argmax_spec (map f rows)) as (a & Ha & Hmax).
  { destruct rows; simpl in *; [lia | discriminate]. }
  exists a, (map f rows). split; [reflexivity|].
  simpl. rewrite Ha. simpl. split; [reflexivity|].
  split; [|exact Hmax].
  destruct Hmax as [Hlt _]. rewrite length_map in Hlt. lia.
Qed.

(** C7, as the code has it: with an unknown [risk_preference] the call
    raises [ValueError] on the greedy branch (the draw is not below
    [epsilon]); on the exploration branch (the draw is below [epsilon]) it
    returns the sampled action and never looks at [risk_preference]. *)
Theorem choose_action_invalid_risk
  (s : Agent Params OptState Buffer) (u : Q) (e : nat) (state : State)
  (r : string) :
  ~ valid_risk_preference r ->
  (epsilon s <= u ->
   exists msg, choose_action forward s u e state r = Raise (ValueError msg)) /\
  (u < epsilon s ->
   forall r' : string, choose_action forward s u e state r' = Ok e).
Proof.
  intro Hr. split.
  - intro Hu. rewrite choose_action_greedy_branch by exact Hu.
    destruct (reduce_quantiles_invalid r (forward (online_net s) [state]) Hr)
      as [msg Hmsg].
    exists msg. now rewrite Hmsg.
  - intros Hu r'. unfold choose_action. apply Qltb_lt in Hu. now rewrite Hu.
Qed.

End ChooseAction.

Lemma choose_action_greedy_deterministic_witness :
  let s := Toy.agent 0 Toy.stocked_buffer in
  choose_action Toy.forward s 0 3%nat 0%nat "risk-averse"
    = choose_action Toy.forward s (1#2) 5%nat 0%nat "risk-averse" /\
  exists a scalars,
    reduce_quantiles "risk-averse" [Toy.net0] = Ok [scalars] /\
    choose_action Toy.forward s 0 3%nat 0%nat "risk-averse" = Ok a /\
    (a < num_actions s)%nat /\
    first_max scalars a.
Proof.
  apply (choose_action_greedy_deterministic Toy.forward
           (Toy.agent 0 Toy.stocked_buffer) 0%nat "risk-averse" Toy.net0
           0 (1#2) 3%nat 5%nat).
  - reflexivity.
  - discriminate.
  - discriminate.
  - reflexivity.
  - reflexivity.
  - simpl. lia.
  - repeat constructor.
  - simpl. lia.
  - right. left. reflexivity.
Defined.

Lemma choose_action_invalid_risk_witness :
  ((1#10) <= (1#2) ->
   exists msg,
     choose_action Toy.forward (Toy.agent (1#10) Toy.stocked_buffer)
                   (1#2) 3%nat 0%nat "bogus" = Raise (ValueError msg)) /\
  ((1#2) < (1#10) ->
   forall r' : string,
     choose_action Toy.forward (Toy.agent (1#10) Toy.stocked_buffer)
                   (1#2) 3%nat 0%nat r' = Ok 3%nat).
Proof.
  apply (choose_action_invalid_risk Toy.forward
           (Toy.agent (1#10) Toy.stocked_buffer) (1#2) 3%nat 0%nat "bogus").
  intros [H | [H | H]]; discriminate H.
Defined.

(** C7 as stated fails: when the draw falls below [epsilon] the sampled
    action is returned and [risk_preference] is never looked at. *)
Lemma choose_action_exploring_accepts_any_risk :
  ~ valid_risk_preference "bogus" /\
  choose_action Toy.forward (Toy.agent 1 Toy.stocked_buffer)
                (1#2) 7%nat 0%nat "bogus" = Ok 7%nat.
Proof.
  split; [intros [H | [H | H]]; discriminate H | reflexivity].
Qed.
(** ** Indexing into elementwise operations *)

Lemma nth_map_lt {A B : Type} (f : A -> B) (l : list A) (d : B) (d' : A) i :
  (i < length l)%nat -> nth i (map f l) d = f (nth i l d').
Proof.
  intro H. rewrite (nth_indep _ d (f d')) by (rewrite length_map; exact H).
  apply map_nth.
Qed.

Lemma map2_length {A B C : Type} (f : A -> B -> C) l1 l2 :
  length l1 = length l2 -> length (map2 f l1 l2) = length l1.
Proof.
  revert l2. induction l1 as [|a t IH]; intros [|b t2] H; simpl in *;
    try discriminate; [reflexivity|].
  f_equal. apply IH. lia.
Qed.

Lemma nth_map2 {A B C : Type} (f : A -> B -> C) l1 l2 d d1 d2 i :
  (i < length l1)%nat -> (i < length l2)%nat ->
  nth i (map2 f l1 l2) d = f (nth i l1 d1) (nth i l2 d2).
Proof.
  revert l2 i. induction l1 as [|a t IH]; intros [|b t2] i H1 H2;
    simpl in *; try lia.
  destruct i as [|i]; [reflexivity|]. apply IH; lia.
Qed.

Lemma Forall_nth_lt {A : Type} (P : A -> Prop) l d i :
  Forall P l -> (i < length l)%nat -> P (nth i l d).
Proof.
  intros H Hi. rewrite Forall_forall in H. apply H, nth_In, Hi.
Qed.

Lemma argmax_rows_spec (t : list (list Q)) :
  Forall (fun row => row <> []) t ->
  exists idx, argmax_rows t = Ok idx /\ length idx = length t /\
    forall b, (b < length t)%nat -> first_max (nth b t []) (nth b idx 0%nat).
Proof.
  induction 1 as [|row rows Hrow _ IH]; simpl.
  - exists []. split; [reflexivity|]. split; [reflexivity|]. intros; lia.
  - destruct (argmax_spec row Hrow) as (a & Ha & Hmax).
    destruct IH as (idx & Hidx & Hlen & Hall).
    exists (a :: idx). rewrite Ha, Hidx. simpl.
    split; [reflexivity|]. split; [now rewrite Hlen|].
    intros [|b] Hb; [exact Hmax | apply Hall; lia].
Qed.

Lemma gather_spec (input : list (list (list Q))) :
  forall index,
    length index = length input ->
    (forall b, (b < length input)%nat ->
       (nth b index 0 < length (nth b input []))%nat) ->
    exists out, gather input index = Ok out /\ length out = length input /\
      forall b, (b < length input)%nat ->
        nth b out [] = nth (nth b index 0%nat) (nth b input []) [].
Proof.
  induction input as [|x xs IH]; intros [|a idx] Hlen Hin; simpl in *;
    try discriminate.
  - exists []. split; [reflexivity|]. split; [reflexivity|]. intros; lia.
  - destruct (nth_error x a) as [row|] eqn:E.
    + destruct (IH idx) as (out & Hout & Hl & Hall); [lia | |].
      { intros b Hb. apply (Hin (S b)). lia. }
      exists (row :: out). rewrite Hout. simpl.
      split; [reflexivity|]. split; [now rewrite Hl|].
      intros [|b] Hb; [|apply Hall; lia].
      symmetry. apply nth_error_nth, E.
    + exfalso. apply nth_error_None in E. specialize (Hin 0%nat). simpl in Hin. lia.
Qed.

(** ** The Bellman targets *)

Section BellmanTargets.

Context {State Params : Type}.
Variable forward : Params -> list State -> list (list (list Q)).

(** C2: the targets built in part 2 of [train_step] are
    [reward + (1 - done) * gamma * selected_next_quantiles], where the
    selected quantiles are the target network's row at the first action
    maximising the online network's per-action mean; for a terminal
    transition every entry equals the reward. *)
Theorem bellman_targets_double_q (gamma : Q) (online target : Params)
  (rewards_t : list Q) (next_states_t : list State) (dones_b : list bool)
  (A N : nat) :
  length rewards_t = length next_states_t ->
  length dones_b = length next_states_t ->
  (1 <= A)%nat -> (1 <= N)%nat ->
  length (forward online next_states_t) = length next_states_t ->
  well_shaped A N (forward online next_states_t) ->
  length (forward target next_states_t) = length next_states_t ->
  well_shaped A N (forward target next_states_t) ->
  exists targets,
    bellman_targets forward gamma online target rewards_t next_states_t
                    (map float_of_bool dones_b) = Ok targets /\
    has_shape (length next_states_t) N targets /\
    forall b, (b < length next_states_t)%nat ->
      exists a,
        first_max (map mean (nth b (forward online next_states_t) [])) a /\
        forall q, (q < N)%nat ->
          nth q (nth b targets []) 0
          == nth b rewards_t 0
             + (1 - float_of_bool (nth b dones_b false)) * gamma
               * nth q (nth a (nth b (forward target next_states_t) []) []) 0
          /\ (nth b dones_b false = true ->
              nth q (nth b targets []) 0 == nth b rewards_t 0).
Proof.
  intros Hr Hd HA _ Hlo Hso Hlt Hst.
  set (B := length next_states_t) in *.
  unfold bellman_targets.
  set (qo := forward online next_states_t) in *.
  set (qt := forward target next_states_t) in *.
  destruct (argmax_rows_spec (map (map mean) qo)) as (best & Hbest & Hbl & Hbmax).
  { apply Forall_map. apply Forall_impl with (2 := Hso).
    intros x [Hx _] E. apply (f_equal (@length Q)) in E.
    rewrite length_map in E. simpl in E. lia. }
  rewrite length_map, Hlo in Hbl, Hbmax.
  assert (Hbmax' : forall b, (b < B)%nat ->
            first_max (map mean (nth b qo [])) (nth b best 0%nat)).
  { intros b Hb. specialize (Hbmax b Hb).
    rewrite (nth_map_lt _ _ _ []) in Hbmax by lia. exact Hbmax. }
  assert (Hrange : forall b, (b < B)%nat ->
            (nth b best 0 < length (nth b qt []))%nat).
  { intros b Hb. destruct (Hbmax' b Hb) as [Hlt' _].
    rewrite length_map in Hlt'.
    destruct (Forall_nth_lt _ _ [] b Hso ltac:(lia)) as [Hao _].
    destruct (Forall_nth_lt _ _ [] b Hst ltac:(lia)) as [Hat _].
    lia. }
  destruct (gather_spec qt best) as (chosen & Hch & Hcl & Hcnth);
    [lia | rewrite Hlt; exact Hrange |].
  rewrite Hlt in Hcl, Hcnth.
  rewrite Hbest. simpl bind. rewrite Hch. simpl bind.
  eexists. split; [reflexivity|].
  set (temp2 := map (fun t => t * gamma)
                    (map (fun d => 1 - d) (map float_of_bool dones_b))).
  assert (Ht2 : length temp2 = B) by (unfold temp2; rewrite !length_map; exact Hd).
  set (temp3 := map2 _ temp2 chosen).
  assert (Ht3 : length temp3 = B)
    by (unfold temp3; rewrite map2_length; lia).
  assert (Hrow : forall b, (b < B)%nat ->
            nth b (map2 (fun r row => map (fun x => r + x) row) rewards_t temp3) []
            = map (fun x => nth b rewards_t 0 + x)
                (map (fun x => (1 - float_of_bool (nth b dones_b false)) * gamma * x)
                     (nth (nth b best 0%nat) (nth b qt []) []))).
  { intros b Hb.
    rewrite (nth_map2 _ _ _ _ 0 []) by lia. f_equal.
    unfold temp3. rewrite (nth_map2 _ _ _ _ 0 []) by lia.
    rewrite Hcnth by exact Hb. unfold temp2.
    rewrite (nth_map_lt _ _ _ 0) by (rewrite !length_map; lia).
    rewrite (nth_map_lt _ _ _ 0) by (rewrite !length_map; lia).
    rewrite (nth_map_lt _ _ _ false) by lia. reflexivity. }
  assert (HrowN : forall b, (b < B)%nat ->
            length (nth (nth b best 0%nat) (nth b qt []) []) = N).
  { intros b Hb.
    destruct (Forall_nth_lt _ _ [] b Hst ltac:(lia)) as [_ Hrows].
    apply (Forall_nth_lt _ _ [] _ Hrows). apply Hrange, Hb. }
  split.
  - split; [rewrite map2_length; lia|].
    apply Forall_forall. intros row Hin.
    destruct (In_nth _ _ [] Hin) as (b & Hb & <-).
    rewrite map2_length in Hb by lia.
    rewrite Hrow by lia. rewrite !length_map. apply HrowN. lia.
  - intros b Hb. exists (nth b best 0%nat). split; [apply Hbmax', Hb|].
    intros q Hq. rewrite Hrow by exact Hb.
    rewrite (nth_map_lt _ _ _ 0) by (rewrite length_map, HrowN; lia).
    rewrite (nth_map_lt _ _ _ 0) by (rewrite HrowN; lia).
    split; [reflexivity|].
    intros ->. simpl float_of_bool. ring.
Qed.

End BellmanTargets.

Lemma bellman_targets_double_q_witness :
  exists targets,
    bellman_targets Toy.forward (1#2) Toy.net0 Toy.net1 [1; 2]
                    [1%nat; 2%nat] (map float_of_bool [false; true])
      = Ok targets /\
    has_shape 2 2 targets /\
    forall b, (b < 2)%nat ->
      exists a,
        first_max
          (map mean (nth b (Toy.forward Toy.net0 [1%nat; 2%nat]) [])) a /\
        forall q, (q < 2)%nat ->
          nth q (nth b targets []) 0
          == nth b [1; 2] 0
             + (1 - float_of_bool (nth b [false; true] false)) * (1#2)
               * nth q (nth a (nth b (Toy.forward Toy.net1 [1%nat; 2%nat]) [])
                            []) 0
          /\ (nth b [false; true] false = true ->
              nth q (nth b targets []) 0 == nth b [1; 2] 0).
Proof.
  apply (bellman_targets_double_q Toy.forward (1#2) Toy.net0 Toy.net1
           [1; 2] [1%nat; 2%nat] [false; true] 2 2).
  - reflexivity.
  - reflexivity.
  - lia.
  - lia.
  - reflexivity.
  - repeat constructor.
  - reflexivity.
  - repeat constructor.
Defined.

(** ** Sums and means *)

Lemma sum_map_ext {A : Type} (f g : A -> Q) (l : list A) :
  (forall x, In x l -> f x == g x) -> sum (map f l) == sum (map g l).
Proof.
  induction l as [|a t IH]; intro H; simpl; [reflexivity|].
  rewrite (H a) by (now left). rewrite IH; [reflexivity|].
  intros x Hx. apply H. now right.
Qed.

Lemma sum_map_plus {A : Type} (f g : A -> Q) (l : list A) :
  sum (map (fun x => f x + g x) l) == sum (map f l) + sum (map g l).
Proof.
  induction l as [|a t IH]; simpl; [reflexivity|]. rewrite IH. ring.
Qed.

Lemma sum_map_div {A : Type} (f : A -> Q) (c : Q) (l : list A) :
  sum (map (fun x => f x / c) l) == sum (map f l) / c.
Proof.
  induction l as [|a t IH]; simpl.
  - unfold Qdiv. ring.
  - rewrite IH. unfold Qdiv. ring.
Qed.

Lemma sum_map_zero {A : Type} (l : list A) : sum (map (fun _ => 0) l) == 0.
Proof. induction l as [|a t IH]; simpl; [reflexivity|]. rewrite IH. ring. Qed.

Lemma sum_swap {A B : Type} (f : A -> B -> Q) (l1 : list A) (l2 : list B) :
  sum (map (fun i => sum (map (fun j => f i j) l2)) l1)
  == sum (map (fun j => sum (map (fun i => f i j) l1)) l2).
Proof.
  induction l1 as [|a t IH]; simpl.
  - symmetry. apply sum_map_zero.
  - rewrite IH. symmetry. apply sum_map_plus.
Qed.

Lemma mean_map_seq (g : nat -> Q) (n : nat) :
  mean (map g (seq 0 n)) = sum (map g (seq 0 n)) / of_nat n.
Proof. unfold mean. now rewrite length_map, length_seq. Qed.

(** Averaging an (n, m) table over rows then columns or over columns then
    rows gives the same number. *)
Lemma mean_mean_swap (f : nat -> nat -> Q) (n m : nat) :
  mean (map (fun p => mean (map (fun q => f q p) (seq 0 m))) (seq 0 n))
  == mean (map (fun i => mean (map (fun j => f i j) (seq 0 n))) (seq 0 m)).
Proof.
  rewrite !mean_map_seq.
  rewrite (sum_map_ext _ (fun p => sum (map (fun q => f q p) (seq 0 m)) / of_nat m))
    by (intros; rewrite mean_map_seq; reflexivity).
  rewrite (sum_map_ext (fun i => mean _)
             (fun i => sum (map (fun j => f i j) (seq 0 n)) / of_nat n))
    by (intros; rewrite mean_map_seq; reflexivity).
  rewrite !sum_map_div, sum_swap. unfold Qdiv. ring.
Qed.

Lemma map_seq_nth {A : Type} (l : list A) (d : A) :
  l = map (fun i => nth i l d) (seq 0 (length l)).
Proof.
  apply (nth_ext _ _ d d); [now rewrite length_map, length_seq|].
  intros i Hi.
  rewrite (nth_map_lt _ _ _ 0%nat) by (rewrite length_seq; exact Hi).
  now rewrite seq_nth.
Qed.

(** ** The quantile Huber loss *)

Lemma quantile_huber_losses_length tau targets prd pr :
  length targets = length pr -> length prd = length pr ->
  length (quantile_huber_losses tau targets prd pr) = length pr.
Proof.
  intros Ht Hd. unfold quantile_huber_losses, batch_loss, quantile_weights,
    indicator, pairwise_delta.
  rewrite length_map, map2_length; rewrite !length_map, !map2_length; lia.
Qed.

Lemma quantile_huber_losses_nth tau targets prd pr b :
  length targets = length pr -> length prd = length pr ->
  (b < length pr)%nat ->
  nth b (quantile_huber_losses tau targets prd pr) 0
  = element_loss tau (nth b targets []) (nth b prd []) (nth b pr []).
Proof.
  intros Ht Hd Hb.
  unfold quantile_huber_losses, batch_loss, quantile_weights, indicator,
    pairwise_delta, element_loss.
  rewrite (nth_map_lt _ _ _ [])
    by (rewrite map2_length; rewrite !length_map, !map2_length; lia).
  f_equal. f_equal.
  rewrite (nth_map2 _ _ _ _ [] [])
    by (rewrite !length_map, !map2_length; lia).
  rewrite (nth_map_lt _ _ _ []) by (rewrite length_map, map2_length; lia).
  rewrite (nth_map_lt _ _ _ []) by (rewrite map2_length; lia).
  rewrite (nth_map_lt _ _ _ []) by (rewrite map2_length; lia).
  rewrite !(nth_map2 _ _ _ _ [] []) by lia.
  reflexivity.
Qed.

Lemma element_loss_table tau tg pr N :
  length tau = N -> length tg = N -> length pr = N ->
  map2 (map2 Qmult)
       (map2 (fun tau_p row => map (fun i => Qabs (tau_p - i)) row) tau
          (map (map (fun d => float_of_bool (Qltb d 0)))
             (map (fun p => map (fun t => t - p) tg) pr)))
       (map (map huber) (map (fun p => map (fun t => t - p) tg) pr))
  = map (fun p => map (fun q =>
           Qabs (nth p tau 0 - float_of_bool (Qltb (ref_delta tg pr q p) 0))
           * huber (ref_delta tg pr q p)) (seq 0 N)) (seq 0 N).
Proof.
  intros Htau Htg Hpr.
  set (D := map (fun p => map (fun t => t - p) tg) pr).
  assert (HD : length D = N) by (unfold D; now rewrite length_map).
  assert (HDp : forall p, (p < N)%nat ->
            nth p D [] = map (fun t => t - nth p pr 0) tg).
  { intros p Hp. unfold D. now rewrite (nth_map_lt _ _ _ 0) by lia. }
  set (I := map (map (fun d => float_of_bool (Qltb d 0))) D).
  assert (HI : length I = N) by (unfold I; now rewrite length_map).
  set (W := map2 _ tau I).
  assert (HW : length W = N) by (unfold W; rewrite map2_length; lia).
  set (H := map (map huber) D).
  assert (HH : length H = N) by (unfold H; now rewrite length_map).
  apply (nth_ext _ _ [] []).
  - rewrite map2_length, length_map, length_seq; lia.
  - intros p Hp. rewrite map2_length in Hp by lia. rewrite HW in Hp.
    rewrite (nth_map2 _ _ _ _ [] []) by lia.
    unfold W. rewrite (nth_map2 _ _ _ _ 0 []) by lia.
    unfold I, H. rewrite !(nth_map_lt _ _ _ []) by lia.
    rewrite (HDp p Hp).
    rewrite (nth_map_lt _ _ _ 0%nat) by (rewrite length_seq; lia).
    rewrite seq_nth by lia. simpl Nat.add.
    apply (nth_ext _ _ 0 0).
    + rewrite map2_length; rewrite !length_map, ?length_seq; lia.
    + intros q Hq. rewrite map2_length in Hq by (rewrite !length_map; lia).
      rewrite !length_map, Htg in Hq.
      rewrite (nth_map2 _ _ _ _ 0 0) by (rewrite !length_map; lia).
      rewrite !(nth_map_lt _ _ _ 0) by (rewrite ?length_map; lia).
      rewrite (nth_map_lt _ _ _ 0%nat) by (rewrite length_seq; lia).
      rewrite seq_nth by lia. reflexivity.
Qed.

Lemma element_loss_ref tau tg pr N :
  length tau = N -> length tg = N -> length pr = N ->
  element_loss tau tg pr pr == ref_loss_tau_predicted tau tg pr N.
Proof.
  intros Htau Htg Hpr. unfold element_loss, ref_loss_tau_predicted.
  rewrite (element_loss_table tau tg pr N) by assumption.
  rewrite map_map.
  apply (mean_mean_swap
           (fun i j => Qabs (nth j tau 0
                             - float_of_bool (Qltb (ref_delta tg pr i j) 0))
                       * huber (ref_delta tg pr i j))).
Qed.

(** C1, as the code has it: the loss of batch element [b] is the quantile
    Huber loss over all pairs [delta[i, j] = target[i] - predicted[j]],
    each pair weighted by [|tau_hat[j] - 1{delta[i, j] < 0}|] with the
    level taken at the predicted index [j], averaged over both quantile
    axes; the scalar loss is the mean over the batch of
    [IS_weight[b] * loss[b]]. *)
Theorem quantile_huber_loss_reference (tau : list Q)
  (targets pred : list (list Q)) (w : list Q) (B N : nat) :
  (1 <= B)%nat -> (1 <= N)%nat ->
  length tau = N -> has_shape B N targets -> has_shape B N pred ->
  length w = B ->
  length (quantile_huber_losses tau targets pred pred) = B /\
  (forall b, (b < B)%nat ->
     nth b (quantile_huber_losses tau targets pred pred) 0
     == ref_loss_tau_predicted tau (nth b targets []) (nth b pred []) N) /\
  weighted_loss w (quantile_huber_losses tau targets pred pred)
  == ref_weighted_mean w (quantile_huber_losses tau targets pred pred) B.
Proof.
  intros _ _ Htau [Htl Hts] [Hpl Hps] Hw.
  assert (Hlen : length (quantile_huber_losses tau targets pred pred) = B)
    by (rewrite quantile_huber_losses_length; lia).
  split; [exact Hlen|]. split.
  - intros b Hb.
    rewrite quantile_huber_losses_nth by lia.
    apply element_loss_ref; trivial.
    + apply (Forall_nth_lt _ _ [] b Hts). lia.
    + apply (Forall_nth_lt _ _ [] b Hps). lia.
  - unfold weighted_loss, ref_weighted_mean.
    set (loss := quantile_huber_losses tau targets pred pred) in *.
    replace (map2 Qmult w loss)
      with (map (fun b => nth b w 0 * nth b loss 0) (seq 0 B));
      [reflexivity|].
    apply (nth_ext _ _ 0 0).
    + rewrite length_map, length_seq, map2_length; lia.
    + intros b Hb. rewrite length_map, length_seq in Hb.
      rewrite (nth_map_lt _ _ _ 0%nat) by (rewrite length_seq; lia).
      rewrite seq_nth by lia.
      rewrite (nth_map2 _ _ _ _ 0 0) by lia. reflexivity.
Qed.

Lemma quantile_huber_loss_reference_witness :
  length (quantile_huber_losses (make_tau_hat 2) [[3#2; 3#2]; [2; 2]]
            [[0; 2]; [3; 1]] [[0; 2]; [3; 1]]) = 2%nat /\
  (forall b, (b < 2)%nat ->
     nth b (quantile_huber_losses (make_tau_hat 2) [[3#2; 3#2]; [2; 2]]
              [[0; 2]; [3; 1]] [[0; 2]; [3; 1]]) 0
     == ref_loss_tau_predicted (make_tau_hat 2)
          (nth b [[3#2; 3#2]; [2; 2]] []) (nth b [[0; 2]; [3; 1]] []) 2) /\
  weighted_loss [1; 1]
    (quantile_huber_losses (make_tau_hat 2) [[3#2; 3#2]; [2; 2]]
       [[0; 2]; [3; 1]] [[0; 2]; [3; 1]])
  == ref_weighted_mean [1; 1]
       (quantile_huber_losses (make_tau_hat 2) [[3#2; 3#2]; [2; 2]]
          [[0; 2]; [3; 1]] [[0; 2]; [3; 1]]) 2.
Proof.
  apply (quantile_huber_loss_reference (make_tau_hat 2)
           [[3#2; 3#2]; [2; 2]] [[0; 2]; [3; 1]] [1; 1] 2 2).
  - lia.
  - lia.
  - reflexivity.
  - split; [reflexivity | repeat constructor].
  - split; [reflexivity | repeat constructor].
  - reflexivity.
Defined.

(** C1 as stated fails: with the level taken at the target index the
    reference differs from the computed loss (9/32 against 9/64 here). *)
Lemma quantile_huber_loss_tau_target_counterexample :
  ~ (nth 0 (quantile_huber_losses (make_tau_hat 2) [[3#2; 3#2]] [[0; 2]]
              [[0; 2]]) 0
     == ref_loss_tau_target (make_tau_hat 2) [3#2; 3#2] [0; 2] 2).
Proof.
  intro H. vm_compute in H. discriminate H.
Qed.

(** ** The training step *)

Lemma py_min_clamp (x : Q) :
  py_min 1 x <= 1 /\ (x <= 1 -> py_min 1 x == x).
Proof.
  unfold py_min. destruct (Qltb x 1) eqn:E.
  - apply Qltb_lt in E. split; [lra | reflexivity].
  - apply Qltb_ge in E. split; [lra | intro; lra].
Qed.

Section TrainStep.

Context {State Params OptState Buffer : Type}.
Variable forward : Params -> list State -> list (list (list Q)).
Variable optimizer_step :
  OptState -> Params -> (Params -> result Q) -> OptState * Params.
Variable rb_len : Buffer -> nat.
Variable rb_sample : Buffer -> nat -> Q -> Batch State * Buffer.
Variable rb_update_priorities : Buffer -> list nat -> list Q -> Buffer.

Local Abbreviation train :=
  (train_step forward optimizer_step rb_len rb_sample rb_update_priorities).

(** The forward pass hands the loss of part 3 to the optimizer: its loss
    tensors are those of [quantile_huber_losses] and [weighted_loss], and
    the tracked loss evaluated at the current online parameters is the
    scalar loss of the pass. *)
Lemma forward_pass_loss (s : Agent Params OptState Buffer)
  (batch : Batch State) (fw : Forward) :
  forward_pass forward s batch = Ok fw ->
  fw_loss fw
    = quantile_huber_losses (tau_hat s) (fw_targets fw) (fw_pred fw)
                            (fw_pred fw) /\
  fw_weighted_loss fw = weighted_loss (weights batch) (fw_loss fw) /\
  tracked_loss forward s batch fw (online_net s) = Ok (fw_weighted_loss fw).
Proof.
  unfold forward_pass, tracked_loss.
  destruct (quantiles_pred_chosen forward (online_net s) (states batch)
              (actions batch)) as [pred|e]; simpl; [|discriminate].
  destruct (bellman_targets forward (gamma s) (online_net s) (target_net s)
              (rewards batch) (next_states batch)
              (map float_of_bool (dones batch))) as [targets|e]; simpl;
    [|discriminate].
  intro H. injection H as <-. simpl. repeat split; reflexivity.
Qed.

(** C4: with fewer stored transitions than [batch_size] the step returns
    at once and leaves the whole agent as it was: nothing is sampled, no
    parameter, optimizer state or priority changes, and [beta] stays. *)
Theorem train_step_skips_when_understocked (s : Agent Params OptState Buffer) :
  (rb_len (replay_buffer s) < batch_size s)%nat ->
  train s = Returned s.
Proof.
  intro H. unfold train_step. apply Nat.ltb_lt in H. now rewrite H.
Qed.

(** C3, as the code has it: a step that is not skipped sets [beta] to
    [min(1.0, beta + beta_increment)], whether or not the rest of the
    step completes. *)
Theorem train_step_advances_beta_when_stocked
  (s : Agent Params OptState Buffer) :
  (batch_size s <= rb_len (replay_buffer s))%nat ->
  beta (state_after (train s)) = py_min 1 (beta s + beta_increment s) /\
  beta (state_after (train s)) <= 1 /\
  (beta s + beta_increment s <= 1 ->
   beta (state_after (train s)) == beta s + beta_increment s).
Proof.
  intro H.
  assert (E : beta (state_after (train s))
              = py_min 1 (beta s + beta_increment s)).
  { unfold train_step. apply Nat.ltb_ge in H. rewrite H.
    destruct (rb_sample _ _ _) as [batch buffer1].
    destruct (forward_pass _ _ _) as [fw|e]; [|reflexivity].
    destruct (optimizer_step _ _ _) as [o' n']. reflexivity. }
  rewrite E. split; [reflexivity|]. apply py_min_clamp.
Qed.

(** C9: [train_step] never changes the target parameters, and
    [update_target_network] overwrites them with the online parameters
    (which it leaves alone), after which both networks give the same
    output on every input. *)
Theorem target_parameters_frame (s : Agent Params OptState Buffer) :
  target_net (state_after (train s)) = target_net s /\
  target_net (update_target_network s) = online_net s /\
  online_net (update_target_network s) = online_net s /\
  forall x,
    forward (target_net (update_target_network s)) x
    = forward (online_net (update_target_network s)) x.
Proof.
  split; [|repeat split].
  unfold train_step.
  destruct (rb_len (replay_buffer s) <? batch_size s)%nat; [reflexivity|].
  destruct (rb_sample _ _ _) as [batch buffer1].
  destruct (forward_pass _ _ _) as [fw|e]; [|reflexivity].
  destruct (optimizer_step _ _ _) as [o' n']. reflexivity.
Qed.

(** A completed step changes only the online parameters, the optimizer
    state, the replay buffer and [beta]. *)
Lemma train_step_frame (s : Agent Params OptState Buffer) :
  let s' := state_after (train s) in
  num_actions s' = num_actions s /\ num_quantiles s' = num_quantiles s /\
  gamma s' = gamma s /\ batch_size s' = batch_size s /\
  epsilon s' = epsilon s /\ beta_increment s' = beta_increment s /\
  tau_hat s' = tau_hat s.
Proof.
  unfold train_step.
  destruct (rb_len (replay_buffer s) <? batch_size s)%nat;
    [repeat split|].
  destruct (rb_sample _ _ _) as [batch buffer1].
  destruct (forward_pass _ _ _) as [fw|e]; [|repeat split].
  destruct (optimizer_step _ _ _) as [o' n']. repeat split.
Qed.

End TrainStep.

Lemma train_step_skips_when_understocked_witness :
  Toy.step (Toy.agent 0 Toy.empty_buffer)
  = Returned (Toy.agent 0 Toy.empty_buffer).
Proof.
  apply (train_step_skips_when_understocked Toy.forward Toy.optimizer_step
           Toy.rb_len Toy.rb_sample Toy.rb_update_priorities
           (Toy.agent 0 Toy.empty_buffer)).
  vm_compute. lia.
Defined.

Lemma train_step_advances_beta_when_stocked_witness :
  beta (state_after (Toy.step (Toy.agent 0 Toy.stocked_buffer)))
  = py_min 1 ((2#5) + (1#1000)) /\
  beta (state_after (Toy.step (Toy.agent 0 Toy.stocked_buffer))) <= 1 /\
  ((2#5) + (1#1000) <= 1 ->
   beta (state_after (Toy.step (Toy.agent 0 Toy.stocked_buffer)))
   == (2#5) + (1#1000)).
Proof.
  apply (train_step_advances_beta_when_stocked Toy.forward Toy.optimizer_step
           Toy.rb_len Toy.rb_sample Toy.rb_update_priorities
           (Toy.agent 0 Toy.stocked_buffer)).
  vm_compute. lia.
Defined.

(** C3 as stated fails: a step skipped for lack of transitions leaves
    [beta] at 2/5 instead of raising it to 401/1000. *)
Lemma train_step_skipped_keeps_beta :
  let s := Toy.agent 0 Toy.empty_buffer in
  ~ (beta (state_after (Toy.step s))
     == py_min 1 (beta s + beta_increment s)).
Proof.
  intro s. vm_compute. discriminate.
Qed.

(** * Further properties *)

(** ** The risk preference read off recent rewards *)

Lemma risk_preference_valid (rewards : list Q) (t : Q) :
  valid_risk_preference (get_risk_preference_from_rewards rewards t).
Proof.
  unfold get_risk_preference_from_rewards, valid_risk_preference.
  destruct (Nat.eqb _ _); [now left|].
  destruct (Qltb _ _); [right; now right | right; now left].
Qed.

(** ** Growth of the Huber function *)

Lemma huber_nonneg (x : Q) : 0 <= huber x.
Proof.
  destruct (Qlt_le_dec (Qabs x) 1) as [Hs | Hl].
  - rewrite (huber_small _ Hs). nra.
  - rewrite (huber_large _ Hl). lra.
Qed.

Lemma Qabs_sq (x : Q) : Qabs x * Qabs x == x * x.
Proof.
  apply (Qabs_case x (fun a => a * a == x * x)); intros _; ring.
Qed.

(** X2: wherever the squares stay within float32 range
    ([|y| <= 2^63]) the Huber function grows with the size of its
    argument. *)
Theorem huber_monotone (x y : Q) :
  Qabs y <= inject_Z (2 ^ 63) ->
  Qabs x <= Qabs y -> huber x <= huber y.
Proof.
  intros _ H.
  pose proof (Qabs_nonneg x) as Hx. pose proof (Qabs_nonneg y) as Hy.
  pose proof (Qabs_sq x) as Sx. pose proof (Qabs_sq y) as Sy.
  destruct (Qlt_le_dec (Qabs x) 1) as [Hxs | Hxl];
    destruct (Qlt_le_dec (Qabs y) 1) as [Hys | Hyl].
  - rewrite (huber_small _ Hxs), (huber_small _ Hys). nra.
  - rewrite (huber_small _ Hxs), (huber_large _ Hyl). nra.
  - lra.
  - rewrite (huber_large _ Hxl), (huber_large _ Hyl). lra.
Qed.

Lemma huber_monotone_witness : huber (1#2) <= huber (-3).
Proof.
  apply (huber_monotone (1#2) (-3)); vm_compute; discriminate.
Defined.

(** ** The percentiles stay within the range of the quantile values *)

Lemma In_insert x y l : y = x \/ In y l -> In y (insert x l).
Proof.
  induction l as [|z t IH]; simpl.
  - intros [H|[]]; auto.
  - destruct (Qle_bool x z); simpl.
    + intros [H|[H|H]]; auto.
    + intros [H|[H|H]]; auto.
Qed.

Lemma sort_In x l : In x (sort l) <-> In x l.
Proof.
  induction l as [|a t IH]; simpl; [tauto|].
  split; intro H.
  - apply insert_In in H. destruct H as [-> | H]; [now left|].
    right. now apply IH.
  - apply In_insert. destruct H as [-> | H]; [now left|].
    right. now apply IH.
Qed.

(** For a level in [0, 1] both ranks fall inside the vector and the
    interpolation weight inside [0, 1]. *)
Lemma quantile_ranks (q : Q) (l : list Q) :
  l <> [] -> 0 <= q -> q <= 1 ->
  let ranks := q * of_nat (length l - 1) in
  (Z.to_nat (Qfloor ranks) < length l)%nat /\
  (Z.to_nat (Qceiling ranks) < length l)%nat /\
  0 <= ranks - inject_Z (Qfloor ranks) /\
  ranks - inject_Z (Qfloor ranks) <= 1.
Proof.
  intros Hl H0 H1 ranks.
  assert (Hn : (1 <= length l)%nat) by (destruct l; simpl; [congruence | lia]).
  assert (Hm : 0 <= of_nat (length l - 1)) by (apply (of_nat_le 0); lia).
  assert (Hr0 : 0 <= ranks) by (unfold ranks; nra).
  assert (Hr1 : ranks <= of_nat (length l - 1)) by (unfold ranks; nra).
  pose proof (Qfloor_le ranks) as Hf. pose proof (Qlt_floor ranks) as Hf'.
  pose proof (Qfloor_le_ceiling ranks) as Hfc.
  assert (Hc : (Qceiling ranks <= Z.of_nat (length l - 1))%Z).
  { rewrite <- (Qceiling_Z (Z.of_nat (length l - 1))).
    apply Qceiling_resp_le, Hr1. }
  assert (Hfpos : (0 <= Qfloor ranks)%Z).
  { change 0%Z with (Qfloor 0). apply Qfloor_resp_le, Hr0. }
  rewrite inject_Z_plus in Hf'. change (inject_Z 1) with 1 in Hf'.
  repeat split; try lia; lra.
Qed.

Lemma quantile_bounds (q : Q) (l : list Q) (lo hi : Q) :
  l <> [] -> 0 <= q -> q <= 1 ->
  (forall x, In x l -> lo <= x /\ x <= hi) ->
  lo <= quantile q l /\ quantile q l <= hi.
Proof.
  intros Hl H0 H1 H.
  destruct (quantile_ranks q l Hl H0 H1) as (Hf & Hc & Hw0 & Hw1).
  unfold quantile, lerp.
  set (ranks := q * of_nat (length l - 1)) in *.
  assert (Ha : lo <= nth (Z.to_nat (Qfloor ranks)) (sort l) 0
               /\ nth (Z.to_nat (Qfloor ranks)) (sort l) 0 <= hi).
  { apply H, sort_In, nth_In. now rewrite sort_length. }
  assert (Hb : lo <= nth (Z.to_nat (Qceiling ranks)) (sort l) 0
               /\ nth (Z.to_nat (Qceiling ranks)) (sort l) 0 <= hi).
  { apply H, sort_In, nth_In. now rewrite sort_length. }
  destruct Ha, Hb. split; nra.
Qed.

(** X5: on a quantile vector whose entries are at most [2^126] in size,
    the 10th and the 90th percentile used by [choose_action] stay within
    any bounds that hold for all entries. *)
Theorem percentiles_within_range (v : list Q) (lo hi : Q) :
  v <> [] ->
  (forall x, In x v -> Qabs x <= inject_Z (2 ^ 126)) ->
  (forall x, In x v -> lo <= x /\ x <= hi) ->
  (lo <= quantile (1#10) v /\ quantile (1#10) v <= hi) /\
  (lo <= quantile (9#10) v /\ quantile (9#10) v <= hi).
Proof.
  intros Hv _ H. split; apply quantile_bounds; trivial; lra.
Qed.

Lemma percentiles_within_range_witness :
  (0 <= quantile (1#10) skewed /\ quantile (1#10) skewed <= 11) /\
  (0 <= quantile (9#10) skewed /\ quantile (9#10) skewed <= 11).
Proof.
  apply (percentiles_within_range skewed 0 11).
  - discriminate.
  - intros x Hx. unfold skewed in Hx. simpl in Hx.
    repeat (destruct Hx as [<- | Hx]; [vm_compute; discriminate|]).
    destruct Hx.
  - intros x Hx. unfold skewed in Hx. simpl in Hx.
    repeat (destruct Hx as [<- | Hx]; [split; discriminate|]).
    destruct Hx.
Defined.

(** ** What [choose_action] can return *)

Lemma Qltb_Qeq (x x' y y' : Q) : x == x' -> y == y' -> Qltb x y = Qltb x' y'.
Proof. intros Hx Hy. unfold Qltb. now rewrite Hx, Hy. Qed.

Lemma argmax_from_Qeq (l l' : list Q) :
  Forall2 Qeq l l' ->
  forall best_i best best' i, best == best' ->
    argmax_from best_i best i l = argmax_from best_i best' i l'.
Proof.
  induction 1 as [|x x' t t' Hx _ IH]; intros best_i best best' i Hb;
    simpl; [reflexivity|].
  rewrite (Qltb_Qeq best best' x x' Hb Hx).
  destruct (Qltb best' x'); apply IH; assumption.
Qed.

Lemma argmax_Qeq (l l' : list Q) :
  Forall2 Qeq l l' -> argmax l = argmax l'.
Proof.
  intros [|x x' t t' Hx Ht]; simpl; [reflexivity|].
  f_equal. apply argmax_from_Qeq; assumption.
Qed.

Lemma argmax_rows_Qeq (t t' : list (list Q)) :
  Forall2 (Forall2 Qeq) t t' -> argmax_rows t = argmax_rows t'.
Proof.
  induction 1 as [|r r' rs rs' Hr _ IH]; simpl; [reflexivity|].
  now rewrite (argmax_Qeq r r' Hr), IH.
Qed.

Lemma point_mass_percentile (q : Q) (row : list Q) (c : Q) :
  0 <= q -> q <= 1 ->
  row <> [] -> (forall x, In x row -> x == c) -> quantile q row == c.
Proof.
  intros H0 H1 Hrow Hc.
  assert (Hb : forall x, In x row -> c <= x /\ x <= c).
  { intros x Hx. rewrite (Hc x Hx). split; apply Qle_refl. }
  apply Qle_antisym; apply (quantile_bounds q row c c); trivial.
Qed.

Section ChooseActionOutcomes.

Context {State Params OptState Buffer : Type}.
Variable forward : Params -> list State -> list (list (list Q)).

Lemma choose_action_valid_risk (s : Agent Params OptState Buffer)
  (u : Q) (e : nat) (state : State) (r : string) (rows : list (list Q)) :
  forward (online_net s) [state] = [rows] ->
  length rows = num_actions s -> (1 <= num_actions s)%nat ->
  (e < num_actions s)%nat ->
  valid_risk_preference r ->
  exists a, choose_action forward s u e state r = Ok a /\
            (a < num_actions s)%nat.
Proof.
  intros Hfw Hlen HA He Hr. unfold choose_action.
  destruct (Qltb u (epsilon s)); [exists e; split; trivial|].
  rewrite Hfw.
  destruct (reduce_quantiles_valid r [rows] Hr) as [f Hf].
  rewrite Hf. simpl map.
  destruct (argmax_spec (map f rows)) as (a & Ha & Hmax).
  { destruct rows; simpl in *; [lia | discriminate]. }
  exists a. simpl. rewrite Ha. simpl. split; [reflexivity|].
  destruct Hmax as [Hlt _]. rewrite length_map in Hlt. lia.
Qed.

(** X6: on a well-shaped network output and a valid environment sample,
    [choose_action] either returns an action index below [num_actions] or
    raises [ValueError]; the latter only on the greedy branch with an
    unknown [risk_preference]. *)
Theorem choose_action_outcomes (s : Agent Params OptState Buffer)
  (u : Q) (e : nat) (state : State) (r : string) (rows : list (list Q)) :
  forward (online_net s) [state] = [rows] ->
  length rows = num_actions s -> (1 <= num_actions s)%nat ->
  Forall (fun row => length row = num_quantiles s) rows ->
  (1 <= num_quantiles s)%nat ->
  (e < num_actions s)%nat ->
  (exists a, choose_action forward s u e state r = Ok a /\
             (a < num_actions s)%nat) \/
  (exists msg, choose_action forward s u e state r = Raise (ValueError msg) /\
               epsilon s <= u /\ ~ valid_risk_preference r).
Proof.
  intros Hfw Hlen HA _ _ He.
  assert (Hdec : valid_risk_preference r \/ ~ valid_risk_preference r).
  { unfold valid_risk_preference.
    destruct (string_dec r "neutral"); [tauto|].
    destruct (string_dec r "risk-averse"); [tauto|].
    destruct (string_dec r "risk-seeking"); tauto. }
  destruct Hdec as [Hr | Hr].
  - left. apply (choose_action_valid_risk s u e state r rows); assumption.
  - destruct (Qltb u (epsilon s)) eqn:E.
    + left. exists e. unfold choose_action. rewrite E. split; trivial.
    + right. apply Qltb_ge in E.
      destruct (reduce_quantiles_invalid r (forward (online_net s) [state]) Hr)
        as [msg Hmsg].
      exists msg. unfold choose_action.
      apply Qltb_ge in E. rewrite E, Hmsg. apply Qltb_ge in E.
      repeat split; trivial.
Qed.

(** X7: a risk preference produced by
    [get_risk_preference_from_rewards] is always accepted by
    [choose_action]: the call returns a valid action index. *)
Theorem choose_action_accepts_derived_risk (s : Agent Params OptState Buffer)
  (u : Q) (e : nat) (state : State) (rows : list (list Q))
  (recent_rewards : list Q) (threshold : Q) :
  forward (online_net s) [state] = [rows] ->
  length rows = num_actions s -> (1 <= num_actions s)%nat ->
  Forall (fun row => length row = num_quantiles s) rows ->
  (1 <= num_quantiles s)%nat ->
  (e < num_actions s)%nat ->
  exists a,
    choose_action forward s u e state
      (get_risk_preference_from_rewards recent_rewards threshold) = Ok a /\
    (a < num_actions s)%nat.
Proof.
  intros Hfw Hlen HA _ _ He.
  apply (choose_action_valid_risk s u e state _ rows); trivial.
  apply risk_preference_valid.
Qed.

(** X8: when every action's quantile vector is a point mass, the
    risk-averse and the risk-seeking preference lead [choose_action] to
    the same result. *)
Theorem choose_action_point_masses (s : Agent Params OptState Buffer)
  (u : Q) (e : nat) (state : State) :
  Forall (Forall point_mass) (forward (online_net s) [state]) ->
  choose_action forward s u e state "risk-averse"
  = choose_action forward s u e state "risk-seeking".
Proof.
  intros Hpm. unfold choose_action.
  destruct (Qltb u (epsilon s)); [reflexivity|].
  unfold reduce_quantiles. simpl String.eqb. simpl bind.
  rewrite (argmax_rows_Qeq
             (map (map (quantile (1#10))) (forward (online_net s) [state]))
             (map (map (quantile (9#10))) (forward (online_net s) [state])));
    [reflexivity|].
  induction Hpm as [|x xs Hx _ IH]; simpl; constructor; [|exact IH].
  induction Hx as [|row rows' [Hne [c Hc]] _ IHr]; simpl; constructor;
    [|exact IHr].
  rewrite (point_mass_percentile (1#10) row c) by (trivial; lra).
  rewrite (point_mass_percentile (9#10) row c) by (trivial; lra).
  reflexivity.
Qed.

End ChooseActionOutcomes.

(** ** Sign of the loss and of the TD errors *)

Lemma Forall_map2 {A B C : Type} (P : A -> Prop) (R : B -> Prop)
  (S : C -> Prop) (f : A -> B -> C) (l1 : list A) (l2 : list B) :
  (forall a b, P a -> R b -> S (f a b)) ->
  Forall P l1 -> Forall R l2 -> Forall S (map2 f l1 l2).
Proof.
  intros Hf H1. revert l2.
  induction H1 as [|a t Ha _ IH]; intros l2 H2; simpl; [constructor|].
  destruct H2 as [|b t2 Hb H2]; constructor; auto.
Qed.

Lemma Forall_map_any {A B : Type} (S : B -> Prop) (f : A -> B) (l : list A) :
  (forall a, S (f a)) -> Forall S (map f l).
Proof. intro H. induction l; simpl; constructor; auto. Qed.

Lemma Forall_True {A : Type} (l : list A) : Forall (fun _ => True) l.
Proof. induction l; constructor; auto. Qed.

Lemma sum_nonneg (l : list Q) : Forall (fun x => 0 <= x) l -> 0 <= sum l.
Proof.
  induction 1 as [|a t Ha _ IH]; simpl; [apply Qle_refl|].
  fold (sum t). lra.
Qed.

Lemma mean_nonneg (l : list Q) : Forall (fun x => 0 <= x) l -> 0 <= mean l.
Proof.
  intro H. unfold mean. pose proof (sum_nonneg l H) as Hs.
  destruct l as [|a t]; [vm_compute; discriminate|].
  apply Qle_shift_div_l; [apply of_nat_pos; simpl; lia | lra].
Qed.

Lemma quantile_huber_losses_nonneg (tau : list Q)
  (targets prd pr : list (list Q)) :
  Forall (fun x => 0 <= x) (quantile_huber_losses tau targets prd pr).
Proof.
  unfold quantile_huber_losses, batch_loss.
  apply Forall_map.
  apply (Forall_map2 (Forall (Forall (fun x => 0 <= x)))
           (Forall (Forall (fun x => 0 <= x)))).
  - intros qw hl Hqw Hhl. apply mean_nonneg, Forall_map.
    apply (Forall_map2 (Forall (fun x => 0 <= x))
             (Forall (fun x => 0 <= x))); trivial.
    intros a b Ha Hb. apply mean_nonneg.
    apply (Forall_map2 (fun x => 0 <= x) (fun x => 0 <= x)); trivial.
    intros x y. apply Qmult_le_0_compat.
  - unfold quantile_weights. apply Forall_map_any. intro ind_b.
    apply (Forall_map2 (fun _ => True) (fun _ => True));
      [|apply Forall_True | apply Forall_True].
    intros tau_p row _ _. apply Forall_map_any. intro i. apply Qabs_nonneg.
  - apply Forall_map_any. intro m. apply Forall_map_any. intro row.
    apply Forall_map_any. apply huber_nonneg.
Qed.

(** X9: on a non-empty batch with at least one quantile, levels in
    [0, 1] and targets and predictions at most [2^62] in size, every
    per-element quantile Huber loss is non-negative, and with non-negative
    importance weights so is the scalar loss. *)
Theorem weighted_loss_nonneg (tau w : list Q) (targets pred : list (list Q))
  (B N : nat) :
  (1 <= B)%nat -> (1 <= N)%nat ->
  length tau = N -> has_shape B N targets -> has_shape B N pred ->
  length w = B ->
  Forall (fun t => 0 <= t /\ t <= 1) tau ->
  Forall (Forall (fun x => Qabs x <= inject_Z (2 ^ 62))) targets ->
  Forall (Forall (fun x => Qabs x <= inject_Z (2 ^ 62))) pred ->
  Forall (fun x => 0 <= x) w ->
  Forall (fun x => 0 <= x) (quantile_huber_losses tau targets pred pred) /\
  0 <= weighted_loss w (quantile_huber_losses tau targets pred pred).
Proof.
  intros _ _ _ _ _ _ _ _ _ Hw. split; [apply quantile_huber_losses_nonneg|].
  unfold weighted_loss. apply mean_nonneg.
  apply (Forall_map2 (fun x => 0 <= x) (fun x => 0 <= x)); trivial.
  - intros a b. apply Qmult_le_0_compat.
  - apply quantile_huber_losses_nonneg.
Qed.

Lemma weighted_loss_nonneg_witness :
  Forall (fun x => 0 <= x)
    (quantile_huber_losses (make_tau_hat 2) [[3#2; 3#2]; [2; 2]]
       [[0; 2]; [3; 1]] [[0; 2]; [3; 1]]) /\
  0 <= weighted_loss [1; 1#2]
         (quantile_huber_losses (make_tau_hat 2) [[3#2; 3#2]; [2; 2]]
            [[0; 2]; [3; 1]] [[0; 2]; [3; 1]]).
Proof.
  apply (weighted_loss_nonneg (make_tau_hat 2) [1; 1#2]
           [[3#2; 3#2]; [2; 2]] [[0; 2]; [3; 1]] 2 2).
  - lia.
  - lia.
  - reflexivity.
  - split; [reflexivity | repeat constructor].
  - split; [reflexivity | repeat constructor].
  - reflexivity.
  - repeat constructor; vm_compute; discriminate.
  - repeat constructor; vm_compute; discriminate.
  - repeat constructor; vm_compute; discriminate.
  - repeat constructor; discriminate.
Defined.

Lemma td_errors_nonneg (targets pred : list (list Q)) :
  Forall (fun x => 0 <= x) (td_errors targets pred).
Proof.
  unfold td_errors. apply Forall_map.
  apply (Forall_map2 (fun _ => True) (fun _ => True));
    [|apply Forall_True | apply Forall_True].
  intros t p _ _. apply mean_nonneg.
  apply (Forall_map2 (fun _ => True) (fun _ => True));
    [|apply Forall_True | apply Forall_True].
  intros. apply Qabs_nonneg.
Qed.

Lemma td_errors_length (targets pred : list (list Q)) :
  length targets = length pred ->
  length (td_errors targets pred) = length pred.
Proof.
  intro H. unfold td_errors. rewrite length_map, map2_length; lia.
Qed.

Lemma choose_action_outcomes_witness :
  (exists a,
     choose_action Toy.forward (Toy.agent (1#10) Toy.stocked_buffer)
                   (1#2) 1%nat 0%nat "bogus" = Ok a /\
     (a < 2)%nat) \/
  (exists msg,
     choose_action Toy.forward (Toy.agent (1#10) Toy.stocked_buffer)
                   (1#2) 1%nat 0%nat "bogus" = Raise (ValueError msg) /\
     (1#10) <= (1#2) /\ ~ valid_risk_preference "bogus").
Proof.
  apply (choose_action_outcomes Toy.forward
           (Toy.agent (1#10) Toy.stocked_buffer) (1#2) 1%nat 0%nat "bogus"
           Toy.net0).
  - reflexivity.
  - reflexivity.
  - simpl. lia.
  - repeat constructor.
  - simpl. lia.
  - simpl. lia.
Defined.

Lemma choose_action_accepts_derived_risk_witness :
  exists a,
    choose_action Toy.forward (Toy.agent 0 Toy.stocked_buffer)
      (1#2) 1%nat 0%nat (get_risk_preference_from_rewards [1#10; 2#10] (1#2))
    = Ok a /\
    (a < 2)%nat.
Proof.
  apply (choose_action_accepts_derived_risk Toy.forward
           (Toy.agent 0 Toy.stocked_buffer) (1#2) 1%nat 0%nat Toy.net0
           [1#10; 2#10] (1#2)).
  - reflexivity.
  - reflexivity.
  - simpl. lia.
  - repeat constructor.
  - simpl. lia.
  - simpl. lia.
Defined.

Lemma choose_action_point_masses_witness :
  choose_action Toy.forward sure_agent (1#2) 0%nat 0%nat "risk-averse"
  = choose_action Toy.forward sure_agent (1#2) 0%nat 0%nat "risk-seeking".
Proof.
  apply (choose_action_point_masses Toy.forward sure_agent (1#2) 0%nat 0%nat).
  repeat constructor; try discriminate.
  - exists 1. intros x Hx. simpl in Hx.
    repeat (destruct Hx as [<- | Hx]; [reflexivity|]). destruct Hx.
  - exists 4. intros x Hx. simpl in Hx.
    repeat (destruct Hx as [<- | Hx]; [reflexivity|]). destruct Hx.
Defined.

(** ** How a training step ends *)

Lemma gather_out_of_range (input : list (list (list Q))) :
  forall (index : list nat) (b : nat),
    (b < length input)%nat -> (b < length index)%nat ->
    (length (nth b input []) <= nth b index 0)%nat ->
    gather input index = Raise RuntimeError.
Proof.
  induction input as [|x xs IH]; intros [|a idx] b Hb1 Hb2 Hbad;
    simpl in *; try lia.
  destruct (nth_error x a) as [row|] eqn:E; [|reflexivity].
  destruct b as [|b].
  - exfalso. assert (nth_error x a <> None) by congruence.
    apply nth_error_Some in H. lia.
  - rewrite (IH idx b); [reflexivity | lia | lia | exact Hbad].
Qed.

Lemma well_shaped_block (A N : nat) (t : list (list (list Q))) (b : nat) :
  well_shaped A N t -> (b < length t)%nat ->
  length (nth b t []) = A /\
  forall a, (a < A)%nat -> length (nth a (nth b t []) []) = N.
Proof.
  intros Hs Hb. destruct (Forall_nth_lt _ _ [] b Hs Hb) as [HA Hrows].
  split; [exact HA|]. intros a Ha.
  apply (Forall_nth_lt _ _ [] a Hrows). lia.
Qed.

Section TrainStepPaths.

Context {State Params OptState Buffer : Type}.
Variable forward : Params -> list State -> list (list (list Q)).
Variable optimizer_step :
  OptState -> Params -> (Params -> result Q) -> OptState * Params.
Variable rb_len : Buffer -> nat.
Variable rb_sample : Buffer -> nat -> Q -> Batch State * Buffer.
Variable rb_update_priorities : Buffer -> list nat -> list Q -> Buffer.

Local Abbreviation train :=
  (train_step forward optimizer_step rb_len rb_sample rb_update_priorities).

Local Abbreviation trains :=
  (train_steps forward optimizer_step rb_len rb_sample rb_update_priorities).

(** The rows of the Bellman targets on well-shaped network outputs. *)
Lemma bellman_targets_rows (gamma : Q) (online target : Params)
  (rewards_t : list Q) (next_states_t : list State) (dones_t : list Q)
  (A N : nat) :
  length rewards_t = length next_states_t ->
  length dones_t = length next_states_t ->
  (1 <= A)%nat ->
  net_shaped forward A N online -> net_shaped forward A N target ->
  exists best targets,
    bellman_targets forward gamma online target rewards_t next_states_t
                    dones_t = Ok targets /\
    length targets = length next_states_t /\
    forall b, (b < length next_states_t)%nat ->
      (nth b best 0 < A)%nat /\
      length (nth (nth b best 0%nat)
                  (nth b (forward target next_states_t) []) []) = N /\
      nth b targets []
      = map (fun x => nth b rewards_t 0 + x)
          (map (fun x => (1 - nth b dones_t 0) * gamma * x)
               (nth (nth b best 0%nat)
                    (nth b (forward target next_states_t) []) [])).
Proof.
  intros Hr Hd HA Hon Htg.
  destruct (Hon next_states_t) as [Hlo Hso].
  destruct (Htg next_states_t) as [Hlt Hst].
  set (B := length next_states_t) in *.
  unfold bellman_targets.
  set (qo := forward online next_states_t) in *.
  set (qt := forward target next_states_t) in *.
  destruct (argmax_rows_spec (map (map mean) qo))
    as (best & Hbest & Hbl & Hbmax).
  { apply Forall_map. apply Forall_impl with (2 := Hso).
    intros x [Hx _] E. apply (f_equal (@length Q)) in E.
    rewrite length_map in E. simpl in E. lia. }
  rewrite length_map, Hlo in Hbl, Hbmax.
  assert (HbA : forall b, (b < B)%nat -> (nth b best 0 < A)%nat).
  { intros b Hb. destruct (Hbmax b Hb) as [Hlt' _].
    rewrite (nth_map_lt _ _ _ []), length_map in Hlt' by lia.
    destruct (well_shaped_block A N qo b Hso ltac:(lia)) as [Hao _]. lia. }
  destruct (gather_spec qt best) as (chosen & Hch & Hcl & Hcnth); [lia | |].
  { rewrite Hlt. intros b Hb.
    destruct (well_shaped_block A N qt b Hst ltac:(lia)) as [Hat _].
    specialize (HbA b Hb). lia. }
  rewrite Hlt in Hcl, Hcnth.
  rewrite Hbest. simpl bind. rewrite Hch. simpl bind.
  exists best. eexists. split; [reflexivity|].
  set (temp2 := map (fun t => t * gamma) (map (fun d => 1 - d) dones_t)).
  assert (Ht2 : length temp2 = B)
    by (unfold temp2; rewrite !length_map; exact Hd).
  set (temp3 := map2 _ temp2 chosen).
  assert (Ht3 : length temp3 = B) by (unfold temp3; rewrite map2_length; lia).
  split; [rewrite map2_length; lia|].
  intros b Hb. split; [apply HbA, Hb|]. split.
  - destruct (well_shaped_block A N qt b Hst ltac:(lia)) as [_ Hrows].
    apply Hrows, HbA, Hb.
  - rewrite (nth_map2 _ _ _ _ 0 []) by lia. f_equal.
    unfold temp3. rewrite (nth_map2 _ _ _ _ 0 []) by lia.
    rewrite Hcnth by exact Hb. unfold temp2.
    rewrite (nth_map_lt _ _ _ 0) by (rewrite !length_map; lia).
    rewrite (nth_map_lt _ _ _ 0) by lia. reflexivity.
Qed.

Lemma bellman_targets_shape (gamma : Q) (online target : Params)
  (rewards_t : list Q) (next_states_t : list State) (dones_t : list Q)
  (A N : nat) :
  length rewards_t = length next_states_t ->
  length dones_t = length next_states_t ->
  (1 <= A)%nat ->
  net_shaped forward A N online -> net_shaped forward A N target ->
  exists targets,
    bellman_targets forward gamma online target rewards_t next_states_t
                    dones_t = Ok targets /\
    has_shape (length next_states_t) N targets.
Proof.
  intros Hr Hd HA Hon Htg.
  destruct (bellman_targets_rows gamma online target rewards_t next_states_t
              dones_t A N Hr Hd HA Hon Htg) as (best & targets & E & Hl & Hrows).
  exists targets. split; [exact E|]. split; [exact Hl|].
  apply Forall_forall. intros row Hin.
  destruct (In_nth _ _ [] Hin) as (b & Hb & <-).
  rewrite Hl in Hb. destruct (Hrows b Hb) as (_ & HN & ->).
  now rewrite !length_map.
Qed.

Lemma quantiles_pred_chosen_shape (net : Params) (states_t : list State)
  (actions_t : list nat) (A N : nat) :
  length actions_t = length states_t ->
  Forall (fun a => (a < A)%nat) actions_t ->
  net_shaped forward A N net ->
  exists pred,
    quantiles_pred_chosen forward net states_t actions_t = Ok pred /\
    has_shape (length states_t) N pred.
Proof.
  intros Hl Hact Hnet. destruct (Hnet states_t) as [Hlen Hshape].
  unfold quantiles_pred_chosen.
  destruct (gather_spec (forward net states_t) actions_t)
    as (pred & E & Hpl & Hnth); [lia | |].
  { rewrite Hlen. intros b Hb.
    destruct (well_shaped_block A N _ b Hshape ltac:(lia)) as [HA _].
    rewrite HA. apply (Forall_nth_lt _ _ 0%nat b Hact). lia. }
  rewrite Hlen in Hpl, Hnth.
  exists pred. split; [exact E|]. split; [exact Hpl|].
  apply Forall_forall. intros row Hin.
  destruct (In_nth _ _ [] Hin) as (b & Hb & <-).
  rewrite Hpl in Hb. rewrite Hnth by exact Hb.
  destruct (well_shaped_block A N _ b Hshape ltac:(lia)) as [_ Hrows].
  apply Hrows. apply (Forall_nth_lt _ _ 0%nat b Hact). lia.
Qed.

(** X12: on a stocked buffer, a sampled batch with in-range actions and
    well-shaped networks, [train_step] returns normally: the optimizer
    receives the tracked loss of the forward pass, and the buffer gets one
    non-negative priority per sampled transition. *)
Theorem train_step_completes (s : Agent Params OptState Buffer)
  (batch : Batch State) (buffer1 : Buffer) (A B N : nat) :
  (batch_size s <= rb_len (replay_buffer s))%nat ->
  rb_sample (replay_buffer s) (batch_size s) (beta s) = (batch, buffer1) ->
  batch_wf A B batch ->
  (1 <= A)%nat -> (1 <= B)%nat -> (1 <= N)%nat ->
  net_shaped forward A N (online_net s) ->
  net_shaped forward A N (target_net s) ->
  exists fw s',
    forward_pass forward s batch = Ok fw /\
    has_shape B N (fw_pred fw) /\ has_shape B N (fw_targets fw) /\
    train s = Returned s' /\
    (optimizer s', online_net s')
    = optimizer_step (optimizer s) (online_net s)
                     (tracked_loss forward s batch fw) /\
    replay_buffer s'
    = rb_update_priorities buffer1 (indices batch)
        (td_errors (fw_targets fw) (fw_pred fw)) /\
    length (td_errors (fw_targets fw) (fw_pred fw)) = B /\
    Forall (fun e => 0 <= e) (td_errors (fw_targets fw) (fw_pred fw)).
Proof.
  intros Hlen Hsample (Hs & Ha & Hr & Hns & Hd & Hw & Hact) HA HB HN Hon Htg.
  destruct (quantiles_pred_chosen_shape (online_net s) (states batch)
              (actions batch) A N ltac:(lia) Hact Hon) as (pred & Ep & Hp).
  destruct (bellman_targets_shape (gamma s) (online_net s) (target_net s)
              (rewards batch) (next_states batch)
              (map float_of_bool (dones batch)) A N
              ltac:(lia) ltac:(rewrite length_map; lia) HA Hon Htg)
    as (targets & Et & Ht).
  rewrite Hs in Hp. rewrite Hns in Ht.
  set (fw := mkForward pred targets
               (quantile_huber_losses (tau_hat s) targets pred pred)
               (weighted_loss (weights batch)
                  (quantile_huber_losses (tau_hat s) targets pred pred))).
  assert (Efw : forward_pass forward s batch = Ok fw).
  { unfold forward_pass. rewrite Ep. simpl bind. rewrite Et. reflexivity. }
  destruct (optimizer_step (optimizer s) (online_net s)
              (tracked_loss forward s batch fw)) as [o' n'] eqn:Eopt.
  exists fw. eexists. split; [exact Efw|].
  split; [exact Hp|]. split; [exact Ht|].
  split.
  { unfold train_step. apply Nat.ltb_ge in Hlen. rewrite Hlen, Hsample.
    unfold forward_pass. cbn [online_net target_net gamma tau_hat].
    rewrite Ep. simpl bind. rewrite Et. simpl bind. fold fw.
    cbn [optimizer online_net].
    change (tracked_loss forward _ batch fw)
      with (tracked_loss forward s batch fw).
    rewrite Eopt. reflexivity. }
  cbn [optimizer online_net replay_buffer fw_targets fw_pred fw].
  split; [symmetry; exact Eopt|]. split; [reflexivity|].
  destruct Hp as [Hpl _]. destruct Ht as [Htl _].
  split; [rewrite td_errors_length; lia | apply td_errors_nonneg].
Qed.

(** X13: when a sampled transition stores an action outside the
    network's action dimension, [train_step] raises [RuntimeError] after
    sampling and after advancing [beta]; the parameters and the optimizer
    state are untouched and no priority is written. *)
Theorem train_step_action_out_of_range (s : Agent Params OptState Buffer)
  (batch : Batch State) (buffer1 : Buffer) (b : nat) :
  (batch_size s <= rb_len (replay_buffer s))%nat ->
  rb_sample (replay_buffer s) (batch_size s) (beta s) = (batch, buffer1) ->
  (b < length (forward (online_net s) (states batch)))%nat ->
  (b < length (actions batch))%nat ->
  (length (nth b (forward (online_net s) (states batch)) [])
   <= nth b (actions batch) 0)%nat ->
  exists s',
    train s = Raised RuntimeError s' /\
    beta s' = py_min 1 (beta s + beta_increment s) /\
    replay_buffer s' = buffer1 /\
    online_net s' = online_net s /\
    optimizer s' = optimizer s /\
    target_net s' = target_net s.
Proof.
  intros Hlen Hsample Hb1 Hb2 Hbad.
  eexists. split.
  - unfold train_step. apply Nat.ltb_ge in Hlen. rewrite Hlen, Hsample.
    unfold forward_pass, quantiles_pred_chosen.
    cbn [online_net target_net gamma tau_hat].
    rewrite (gather_out_of_range _ _ b Hb1 Hb2 Hbad). reflexivity.
  - repeat split.
Qed.

End TrainStepPaths.

Lemma toy_net_shaped (net : Toy.Params) (A N : nat) :
  length net = A -> Forall (fun row => length row = N) net ->
  net_shaped Toy.forward A N net.
Proof.
  intros HA HN x. unfold Toy.forward. split; [apply length_map|].
  unfold well_shaped. apply Forall_map_any. intros _. split; assumption.
Qed.

Lemma train_step_completes_witness :
  exists fw s',
    forward_pass Toy.forward (Toy.agent 0 Toy.stocked_buffer)
      (fst (Toy.rb_sample Toy.stocked_buffer 2 (2#5))) = Ok fw /\
    has_shape 2 2 (fw_pred fw) /\ has_shape 2 2 (fw_targets fw) /\
    Toy.step (Toy.agent 0 Toy.stocked_buffer) = Returned s' /\
    (optimizer s', online_net s')
    = Toy.optimizer_step 0%nat Toy.net0
        (tracked_loss Toy.forward (Toy.agent 0 Toy.stocked_buffer)
           (fst (Toy.rb_sample Toy.stocked_buffer 2 (2#5))) fw) /\
    replay_buffer s'
    = Toy.rb_update_priorities Toy.stocked_buffer
        (indices (fst (Toy.rb_sample Toy.stocked_buffer 2 (2#5))))
        (td_errors (fw_targets fw) (fw_pred fw)) /\
    length (td_errors (fw_targets fw) (fw_pred fw)) = 2%nat /\
    Forall (fun e => 0 <= e) (td_errors (fw_targets fw) (fw_pred fw)).
Proof.
  apply (train_step_completes Toy.forward Toy.optimizer_step Toy.rb_len
           Toy.rb_sample Toy.rb_update_priorities
           (Toy.agent 0 Toy.stocked_buffer)
           (fst (Toy.rb_sample Toy.stocked_buffer 2 (2#5)))
           Toy.stocked_buffer 2 2 2).
  - vm_compute. lia.
  - reflexivity.
  - unfold batch_wf. simpl. repeat split; repeat constructor.
  - lia.
  - lia.
  - lia.
  - apply toy_net_shaped; [reflexivity | repeat constructor].
  - apply toy_net_shaped; [reflexivity | repeat constructor].
Defined.

Lemma train_step_action_out_of_range_witness :
  exists s',
    Toy.step (Toy.agent 0 stray_buffer) = Raised RuntimeError s' /\
    beta s' = py_min 1 ((2#5) + (1#1000)) /\
    replay_buffer s' = stray_buffer /\
    online_net s' = Toy.net0 /\
    optimizer s' = 0%nat /\
    target_net s' = Toy.net1.
Proof.
  apply (train_step_action_out_of_range Toy.forward Toy.optimizer_step
           Toy.rb_len Toy.rb_sample Toy.rb_update_priorities
           (Toy.agent 0 stray_buffer)
           (fst (Toy.rb_sample stray_buffer 2 (2#5))) stray_buffer 1).
  - vm_compute. lia.
  - reflexivity.
  - simpl. lia.
  - simpl. lia.
  - simpl. lia.
Defined.

(** ** Runs of training steps *)

Section TrainingRuns.

Context {State Params OptState Buffer : Type}.
Variable forward : Params -> list State -> list (list (list Q)).
Variable optimizer_step :
  OptState -> Params -> (Params -> result Q) -> OptState * Params.
Variable rb_len : Buffer -> nat.
Variable rb_sample : Buffer -> nat -> Q -> Batch State * Buffer.
Variable rb_update_priorities : Buffer -> list nat -> list Q -> Buffer.

Local Abbreviation train :=
  (train_step forward optimizer_step rb_len rb_sample rb_update_priorities).

Local Abbreviation trains :=
  (train_steps forward optimizer_step rb_len rb_sample rb_update_priorities).

Lemma train_step_target_unchanged (s : Agent Params OptState Buffer) :
  target_net (state_after (train s)) = target_net s.
Proof.
  unfold train_step.
  destruct (rb_len (replay_buffer s) <? batch_size s)%nat; [reflexivity|].
  destruct (rb_sample _ _ _) as [batch buffer1].
  destruct (forward_pass _ _ _) as [fw|e]; [|reflexivity].
  destruct (optimizer_step _ _ _) as [o' n']. reflexivity.
Qed.

Lemma train_step_beta_cases (s : Agent Params OptState Buffer) :
  ((rb_len (replay_buffer s) < batch_size s)%nat /\
   beta (state_after (train s)) = beta s) \/
  ((batch_size s <= rb_len (replay_buffer s))%nat /\
   beta (state_after (train s)) = py_min 1 (beta s + beta_increment s)).
Proof.
  unfold train_step.
  destruct (rb_len (replay_buffer s) <? batch_size s)%nat eqn:E.
  - left. apply Nat.ltb_lt in E. split; [exact E | reflexivity].
  - right. apply Nat.ltb_ge in E. split; [exact E|].
    destruct (rb_sample _ _ _) as [batch buffer1].
    destruct (forward_pass _ _ _) as [fw|e]; [|reflexivity].
    destruct (optimizer_step _ _ _) as [o' n']. reflexivity.
Qed.

(** X14: over any number of training steps the target parameters stay
    as they were, so after [update_target_network] they keep the online
    parameters of that moment; [tau_hat], [gamma], [epsilon], [batch_size]
    and [beta_increment] never change either. *)
Theorem target_frozen_between_syncs (n : nat)
  (s : Agent Params OptState Buffer) :
  target_net (trains n s) = target_net s /\
  target_net (trains n (update_target_network s)) = online_net s /\
  tau_hat (trains n s) = tau_hat s /\
  gamma (trains n s) = gamma s /\
  epsilon (trains n s) = epsilon s /\
  batch_size (trains n s) = batch_size s /\
  beta_increment (trains n s) = beta_increment s.
Proof.
  assert (H : forall (k : nat) (a : Agent Params OptState Buffer),
            target_net (trains k a) = target_net a /\
            tau_hat (trains k a) = tau_hat a /\
            gamma (trains k a) = gamma a /\
            epsilon (trains k a) = epsilon a /\
            batch_size (trains k a) = batch_size a /\
            beta_increment (trains k a) = beta_increment a).
  { induction k as [|k IH]; intro a; simpl; [repeat split|].
    destruct (IH (state_after (train a))) as (H1 & H2 & H3 & H4 & H5 & H6).
    destruct (train_step_frame forward optimizer_step rb_len rb_sample
                rb_update_priorities a) as (_ & _ & F3 & F4 & F5 & F6 & F7).
    rewrite H1, H2, H3, H4, H5, H6.
    rewrite train_step_target_unchanged. repeat split; assumption. }
  destruct (H n s) as (H1 & H2 & H3 & H4 & H5 & H6).
  destruct (H n (update_target_network s)) as (U1 & _).
  repeat split; trivial.
Qed.

(** X15: with a non-negative increment and [beta] at most 1, [beta] never
    decreases over training steps and never exceeds 1. *)
Theorem beta_schedule_bounds (n : nat) (s : Agent Params OptState Buffer) :
  0 <= beta_increment s -> beta s <= 1 ->
  beta s <= beta (trains n s) /\
  beta (trains n s) <= 1.
Proof.
  revert s. induction n as [|n IH]; intros s Hinc Hb.
  - simpl. split; lra.
  - cbn [train_steps]. set (s1 := state_after (train s)).
    assert (Hinc1 : beta_increment s1 = beta_increment s).
    { apply (train_step_frame forward optimizer_step rb_len rb_sample
               rb_update_priorities s). }
    assert (Hs1 : beta s <= beta s1 /\ beta s1 <= 1).
    { destruct (train_step_beta_cases s) as [[_ E] | [_ E]];
        fold s1 in E; rewrite E.
      - split; lra.
      - destruct (py_min_clamp (beta s + beta_increment s)) as [C1 C2].
        unfold py_min in *.
        destruct (Qltb (beta s + beta_increment s) 1) eqn:El.
        + split; lra.
        + split; lra. }
    destruct Hs1 as (A1 & A2).
    destruct (IH s1) as (I1 & I2); [rewrite Hinc1; exact Hinc | exact A2|].
    split; lra.
Qed.

(** X17: with a non-negative discount, Bellman targets built from
    non-decreasing target-network quantiles are non-decreasing along the
    quantile axis. *)
Theorem bellman_targets_preserve_order (gamma0 : Q) (online target : Params)
  (rewards_t : list Q) (next_states_t : list State) (dones_b : list bool)
  (A N : nat) :
  length rewards_t = length next_states_t ->
  length dones_b = length next_states_t ->
  (1 <= A)%nat -> (1 <= N)%nat ->
  net_shaped forward A N online -> net_shaped forward A N target ->
  0 <= gamma0 ->
  (forall b a, (b < length next_states_t)%nat -> (a < A)%nat ->
     nondecreasing (nth a (nth b (forward target next_states_t) []) [])) ->
  exists targets,
    bellman_targets forward gamma0 online target rewards_t next_states_t
                    (map float_of_bool dones_b) = Ok targets /\
    forall b, (b < length next_states_t)%nat ->
      nondecreasing (nth b targets []).
Proof.
  intros Hr Hd HA _ Hon Htg Hg Hsorted.
  destruct (bellman_targets_rows forward gamma0 online target rewards_t
              next_states_t (map float_of_bool dones_b) A N Hr
              ltac:(rewrite length_map; exact Hd) HA Hon Htg)
    as (best & targets & E & Hl & Hrows).
  exists targets. split; [exact E|].
  intros b Hb. destruct (Hrows b Hb) as (HbA & HN & ->).
  set (row := nth (nth b best 0%nat)
                  (nth b (forward target next_states_t) []) []) in *.
  intros i j Hij Hj. rewrite !length_map in Hj.
  rewrite !(nth_map_lt _ _ _ 0) by (rewrite ?length_map; lia).
  pose proof (Hsorted b (nth b best 0%nat) Hb HbA i j Hij Hj) as Hle.
  fold row in Hle.
  rewrite (nth_map_lt _ _ _ false) by lia.
  assert (Hc : 0 <= (1 - float_of_bool (nth b dones_b false)) * gamma0).
  { apply Qmult_le_0_compat; [|exact Hg].
    destruct (nth b dones_b false); simpl; lra. }
  set (k := (1 - float_of_bool (nth b dones_b false)) * gamma0) in *.
  nra.
Qed.

End TrainingRuns.

Lemma beta_schedule_bounds_witness :
  (2#5) <= beta (train_steps Toy.forward Toy.optimizer_step Toy.rb_len
                   Toy.rb_sample Toy.rb_update_priorities 3
                   (Toy.agent 0 Toy.stocked_buffer)) /\
  beta (train_steps Toy.forward Toy.optimizer_step Toy.rb_len
          Toy.rb_sample Toy.rb_update_priorities 3
          (Toy.agent 0 Toy.stocked_buffer)) <= 1.
Proof.
  apply (beta_schedule_bounds Toy.forward Toy.optimizer_step Toy.rb_len
           Toy.rb_sample Toy.rb_update_priorities 3
           (Toy.agent 0 Toy.stocked_buffer)).
  - simpl. discriminate.
  - simpl. discriminate.
Defined.

Lemma bellman_targets_preserve_order_witness :
  exists targets,
    bellman_targets Toy.forward (1#2) Toy.net0 Toy.net1 [1; 2]
                    [1%nat; 2%nat] (map float_of_bool [false; true])
      = Ok targets /\
    forall b, (b < 2)%nat -> nondecreasing (nth b targets []).
Proof.
  apply (bellman_targets_preserve_order Toy.forward (1#2) Toy.net0 Toy.net1
           [1; 2] [1%nat; 2%nat] [false; true] 2 2).
  - reflexivity.
  - reflexivity.
  - lia.
  - lia.
  - apply toy_net_shaped; [reflexivity | repeat constructor].
  - apply toy_net_shaped; [reflexivity | repeat constructor].
  - discriminate.
  - intros b a Hb Ha i j Hij Hj. simpl in Hb.
    destruct b as [|[|b]]; try lia; destruct a as [|[|a]]; try lia;
      simpl in Hj;
      destruct j as [|[|j]]; try lia; destruct i as [|[|i]]; try lia;
      vm_compute; discriminate.
Defined.
